(** * spring-keys: [scripts/extract_quotes.py]

    A shallow embedding of the quote extraction script and the proofs of
    its specification.

    The script reads the text of [src/quotes.rs], scans it with one
    regular expression, groups the captured records by category in the
    module-level dictionary [quotes_by_category], and merges each group
    into a JSON file per category.

    Modelling choices.
    - A Python [str] is a [string]; a character is a code point below 256
      and the classes [\s] and [\w] are those of Python's [re] module for
      [str] patterns on that range.
    - [re] is a backtracking matcher.  The fragment the pattern uses
      (single characters, greedy repetitions of a character class and
      capturing groups around such repetitions) is embedded as a list of
      items with the backtracking written out.
    - A JSON file holding a list of flat objects is the list of records
      it holds: [json.dump] followed by [json.load] is the identity on
      such lists.  The output directory is a [gmap] from paths to file
      contents; an absent key is an absent file.  The directory itself
      ([os.makedirs]) is taken to exist.  A file that holds anything
      else, on which [json.load] or the lookup of a record's text
      raises, is outside the model: every statement is about files that
      hold lists of records.
    - The source text is an argument: [content] stands for what
      [f.read()] returns.
    - [print] appends a [message] to the list of printed lines.
    - Exceptions ([KeyError], [ValueError] on unpacking) are [None]. *)

From Stdlib Require Import Ascii String NArith.
From stdpp Require Import gmap strings list fin_maps.

Open Scope string_scope.
Open Scope list_scope.

#[local] Arguments String.append _ _ : simpl nomatch.

(** ** Characters and character classes *)

Module Chars.

Definition code (a : ascii) : N := N_of_ascii a.

Definition between (lo hi : N) (a : ascii) : bool :=
  ((lo <=? code a) && (code a <=? hi))%N.

Definition dquote : ascii := "034"%char.
Definition newline : ascii := "010"%char.

(** [\s]: [str.isspace] on code points below 256. *)
Definition is_space (a : ascii) : bool :=
  between 9 13 a || between 28 32 a || (code a =? 133)%N || (code a =? 160)%N.

(** [\w]: [str.isalnum] or the underscore, on code points below 256. *)
Definition is_word (a : ascii) : bool :=
  between 48 57 a || between 65 90 a || between 97 122 a || (code a =? 95)%N
  || (code a =? 170)%N || (code a =? 178)%N || (code a =? 179)%N
  || (code a =? 181)%N || (code a =? 185)%N || (code a =? 186)%N
  || between 188 190 a || between 192 214 a || between 216 246 a
  || between 248 255 a.

End Chars.

(** ** The regular expression fragment *)

Module Regex.

Import Chars.

Inductive cclass : Type :=
| Space                 (* \s *)
| Word                  (* \w *)
| NotDquote             (* any character but the double quote *)
| Dot                   (* . without DOTALL: anything but a newline *)
| Exactly (a : ascii).  (* a literal character *)

Definition in_class (c : cclass) (a : ascii) : bool :=
  match c with
  | Space => is_space a
  | Word => is_word a
  | NotDquote => negb (Ascii.eqb a dquote)
  | Dot => negb (Ascii.eqb a newline)
  | Exactly b => Ascii.eqb a b
  end.

(** An item of a pattern: one character of a class, or a greedy
    repetition [c*] ([nonempty = false]) or [c+] ([nonempty = true]) of a
    class, inside a capturing group when [capture] holds. *)
Inductive item : Type :=
| Chr (c : cclass)
| Rep (capture nonempty : bool) (c : cclass).

Definition pattern : Type := list item.

Definition snoc (w : string) (a : ascii) : string := w +:+ String a EmptyString.

(** Greedy repetition with backtracking: take one more character of the
    class while there is one and try the rest of the pattern from the
    longest run first, giving characters back one at a time. *)
Fixpoint greedy {R : Type} (c : cclass) (k : string → string → option R)
    (w s : string) : option R :=
  match s with
  | String a s' =>
      if in_class c a then
        match greedy c k (snoc w a) s' with
        | Some r => Some r
        | None => k w s
        end
      else k w s
  | EmptyString => k w s
  end.

Definition is_empty (w : string) : bool :=
  match w with EmptyString => true | String _ _ => false end.

(** [bt p s caps]: match [p] at the start of [s]; the result is the list
    of captured groups, [caps] followed by those of [p], and what is left
    of [s] after the match. *)
Fixpoint bt (p : pattern) (s : string) (caps : list string)
    : option (list string * string) :=
  match p with
  | [] => Some (caps, s)
  | Chr c :: p' =>
      match s with
      | String a s' => if in_class c a then bt p' s' caps else None
      | EmptyString => None
      end
  | Rep capture nonempty c :: p' =>
      greedy c
        (fun w rest =>
           if nonempty && is_empty w then None
           else bt p' rest (if capture then caps ++ [w] else caps))
        EmptyString s
  end.

(** [pattern.findall(s)] for a pattern that matches no empty string: try
    a match at each position from the left; after a match, go on where it
    ended.  [skip] counts the characters of the last match that are still
    ahead. *)
Fixpoint scan (p : pattern) (s : string) (skip : nat) : list (list string) :=
  match skip with
  | S n =>
      match s with
      | String _ s' => scan p s' n
      | EmptyString => []
      end
  | O =>
      match bt p s [] with
      | Some (caps, rest) =>
          caps :: match s with
                  | String _ s' =>
                      scan p s' (String.length s - String.length rest - 1)
                  | EmptyString => []
                  end
      | None =>
          match s with
          | String _ s' => scan p s' 0
          | EmptyString => []
          end
      end
  end.

Definition findall (p : pattern) (s : string) : list (list string) :=
  scan p s 0.

(** Literal text in a pattern. *)
Fixpoint lit (s : string) : pattern :=
  match s with
  | EmptyString => []
  | String a s' => Chr (Exactly a) :: lit s'
  end.

(** The longest run of characters of a class at the start of [s], and
    what follows it. *)
Fixpoint longest (c : cclass) (s : string) : string :=
  match s with
  | String a s' => if in_class c a then String a (longest c s') else EmptyString
  | EmptyString => EmptyString
  end.

Fixpoint beyond (c : cclass) (s : string) : string :=
  match s with
  | String a s' => if in_class c a then beyond c s' else s
  | EmptyString => EmptyString
  end.

Fixpoint all_in (c : cclass) (w : string) : bool :=
  match w with
  | String a w' => in_class c a && all_in c w'
  | EmptyString => true
  end.

(** The capturing groups of a pattern, in order: whether the group needs
    a character, and its class. *)
Fixpoint groups (p : pattern) : list (bool * cclass) :=
  match p with
  | [] => []
  | Chr _ :: p' => groups p'
  | Rep capture nonempty c :: p' =>
      if capture then (nonempty, c) :: groups p' else groups p'
  end.

Definition captured (g : bool * cclass) (w : string) : Prop :=
  all_in g.2 w = true ∧ (g.1 = true → w ≠ EmptyString).

(** The number of single characters a pattern asks for. *)
Fixpoint chars (p : pattern) : nat :=
  match p with
  | [] => 0
  | Chr _ :: p' => S (chars p')
  | Rep _ _ _ :: p' => chars p'
  end.

(** Every repetition is followed by a literal character outside its
    class: giving characters back can then never help. *)
Fixpoint det (p : pattern) : bool :=
  match p with
  | [] => true
  | Chr _ :: p' => det p'
  | Rep _ _ c :: p' =>
      match p' with
      | Chr (Exactly a) :: _ => negb (in_class c a) && det p'
      | _ => false
      end
  end.

(** No match of [p] begins on a character of [pre] in [pre +:+ rest]. *)
Fixpoint no_match_in (p : pattern) (pre rest : string) : bool :=
  match pre with
  | EmptyString => true
  | String a pre' =>
      match bt p (pre +:+ rest) [] with
      | Some _ => false
      | None => no_match_in p pre' rest
      end
  end.

End Regex.

(** ** The script *)

Import Chars Regex.

Definition ws : item := Rep false false Space.            (* \s* *)
(** A double-quoted field whose content, free of double quotes, is
    captured. *)
Definition quoted : pattern :=
  [Chr (Exactly dquote); Rep true false NotDquote; Chr (Exactly dquote)].
Definition label : item := Rep true true Word.            (* (\w+) *)

Definition quote_pattern : pattern :=
  lit "Quote" ++ [ws] ++ lit "{" ++ [ws]
  ++ lit "text:" ++ [ws] ++ quoted ++ [Chr Dot] ++ lit "to_string()," ++ [ws]
  ++ lit "source:" ++ [ws] ++ quoted ++ [Chr Dot] ++ lit "to_string()," ++ [ws]
  ++ lit "difficulty:" ++ [ws] ++ lit "QuoteDifficulty::" ++ [label] ++ lit "," ++ [ws]
  ++ lit "category:" ++ [ws] ++ lit "QuoteCategory::" ++ [label] ++ lit "," ++ [ws]
  ++ lit "origin:" ++ [ws] ++ quoted ++ [Chr Dot] ++ lit "to_string()," ++ [ws]
  ++ lit "}".

(** A record, the dictionary the script builds for each match. *)
Record quote : Type := Quote {
  text : string;
  source : string;
  difficulty : string;
  category : string;
  origin : string
}.

#[global] Instance quote_eq_dec : EqDecision quote.
Proof. solve_decision. Defined.

(** The category mapping; a Python dictionary iterates in insertion
    order, so it is kept as an association list. *)
Definition categories : list (string * string) :=
  [ ("Proverbs", "proverbs.json");
    ("TongueTwisters", "tongue_twisters.json");
    ("Literature", "literature.json");
    ("Programming", "programming.json");
    ("Humor", "humor.json");
    ("Multilingual", "multilingual.json");
    ("Typewriters", "typewriters.json") ].

(** [{cat: [] for cat in categories.keys()}] *)
Definition quotes_by_category_init : gmap string (list quote) :=
  list_to_map ((fun cf : string * string => (cf.1, @nil quote)) <$> categories).

(** The lines the script prints. *)
Inductive message : Type :=
| Parsing (file_path : string)
| Found (n : nat)
| UnknownCategory (category : string)
| NoQuotesFound (category : string)
| NoNewQuotes (category : string)
| Adding (new existing : nat) (category : string)
| Creating (n : nat) (category : string)
| Saved (n : nat) (filepath : string)
| Complete.

(** What a run reads and changes: the module-level dictionary, the JSON
    files of the output directory and the printed lines. *)
Record world : Type := World {
  quotes_by_category : gmap string (list quote);
  files : gmap string (list quote);
  stdout : list message
}.

Definition print (m : message) (w : world) : world :=
  World (quotes_by_category w) (files w) (stdout w ++ [m]).

Definition set_quotes (q : gmap string (list quote)) (w : world) : world :=
  World q (files w) (stdout w).

(** [json.dump(all_quotes, f)] on a file opened for writing. *)
Definition write (filepath : string) (all_quotes : list quote) (w : world) : world :=
  World (quotes_by_category w) (<[filepath := all_quotes]> (files w)) (stdout w).

(** A [for] loop whose body may raise. *)
Fixpoint for_each {A : Type} (body : A → world → option world)
    (l : list A) (w : world) : option world :=
  match l with
  | [] => Some w
  | x :: l' =>
      match body x w with
      | Some w' => for_each body l' w'
      | None => None
      end
  end.

(** [text, source, difficulty, category, origin = match] and the
    dictionary built from them; unpacking anything but five values
    raises. *)
Definition unpack (m : list string) : option quote :=
  match m with
  | [text; source; difficulty; category; origin] =>
      Some (Quote text source difficulty category origin)
  | _ => None
  end.

(** The body of the loop over the matches. *)
Definition add_match (m : list string) (w : world) : option world :=
  match unpack m with
  | Some quote =>
      match quotes_by_category w !! category quote with
      | Some l =>
          Some (set_quotes (<[category quote := l ++ [quote]]> (quotes_by_category w)) w)
      | None => Some (print (UnknownCategory (category quote)) w)
      end
  | None => None
  end.

(** [content] is what [f.read()] returns for [file_path]. *)
Definition extract_quotes_from_file (file_path content : string) (w : world)
    : option world :=
  let w := print (Parsing file_path) w in
  let matches := findall quote_pattern content in
  let w := print (Found (length matches)) w in
  for_each add_match matches w.

Definition directory : string := "quotes/categories/".

(** The path of a category file in the output directory. *)
Definition path_of (filename : string) : string := directory +:+ filename.

(** The body of the loop over [categories.items()]. *)
Definition save_category (cf : string * string) (w : world) : option world :=
  let '(category, filename) := cf in
  match quotes_by_category w !! category with
  | None => None
  | Some [] => Some (print (NoQuotesFound category) w)
  | Some quotes =>
      let filepath := path_of filename in
      match files w !! filepath with
      | Some existing_quotes =>
          let existing_texts : gset string := list_to_set (text <$> existing_quotes) in
          let new_quotes := filter (fun q => text q ∉ existing_texts) quotes in
          match new_quotes with
          | [] => Some (print (NoNewQuotes category) w)
          | _ =>
              let all_quotes := existing_quotes ++ new_quotes in
              let w := print (Adding (length new_quotes) (length existing_quotes) category) w in
              let w := write filepath all_quotes w in
              Some (print (Saved (length all_quotes) filepath) w)
          end
      | None =>
          let all_quotes := quotes in
          let w := print (Creating (length quotes) category) w in
          let w := write filepath all_quotes w in
          Some (print (Saved (length all_quotes) filepath) w)
      end
  end.

Definition save_quotes_to_json (w : world) : option world :=
  for_each save_category categories w.

(** The script run on a source text [content] with the output directory
    holding [files0]: the module is loaded, so the dictionary is fresh. *)
Definition main (content : string) (files0 : gmap string (list quote)) : option world :=
  match extract_quotes_from_file "src/quotes.rs" content
          (World quotes_by_category_init files0 []) with
  | None => None
  | Some w =>
      match save_quotes_to_json w with
      | None => None
      | Some w => Some (print Complete w)
      end
  end.

(** The output directory after a run. *)
Definition run (content : string) (files0 : gmap string (list quote))
    : option (gmap string (list quote)) :=
  files <$> main content files0.

(** The records the loop of [extract_quotes_from_file] builds from a
    source text, in order, and those of one category. *)
Definition extracted (content : string) : list quote :=
  omap unpack (findall quote_pattern content).

Definition batch (cat : string) (content : string) : list quote :=
  filter (fun q => category q = cat) (extracted content).

Definition texts (l : list quote) : list string := text <$> l.

(** The records of [quotes] whose text is not in the file [existing]. *)
Definition fresh (existing quotes : list quote) : list quote :=
  filter (fun q => text q ∉ texts existing) quotes.

(** What one round of [save_quotes_to_json] leaves in a category's file
    that held [existing] when the category has [quotes]. *)
Definition merged (existing : option (list quote)) (quotes : list quote)
    : option (list quote) :=
  match existing with
  | Some e => Some (e ++ fresh e quotes)
  | None => match quotes with [] => None | _ => Some quotes end
  end.

(** The dictionary has the seven keys the module gave it. *)
Definition has_keys (q : gmap string (list quote)) : Prop :=
  ∀ cat fname, (cat, fname) ∈ categories → is_Some (q !! cat).

(** The [text] values of every file are pairwise distinct; those of the
    records a source text yields for each category are. *)
Definition distinct_texts (fs : gmap string (list quote)) : Prop :=
  ∀ path E, fs !! path = Some E → NoDup (texts E).

Definition distinct_batches (content : string) : Prop :=
  ∀ cat fname, (cat, fname) ∈ categories → NoDup (texts (batch cat content)).

(** Runs of the script one after the other, on the source texts
    [contents], each on the files the one before left. *)
Fixpoint runs (contents : list string) (files0 : gmap string (list quote))
    : option (gmap string (list quote)) :=
  match contents with
  | [] => Some files0
  | content :: contents' =>
      match run content files0 with
      | Some files1 => runs contents' files1
      | None => None
      end
  end.

Definition dq : string := String dquote EmptyString.
Definition nl : string := String newline EmptyString.

(** A block of [quotes.rs] as the Rust source lays it out. *)
Definition rust_block (text source difficulty category origin : string) : string :=
  "Quote {" +:+ nl
  +:+ "    text: " +:+ dq +:+ text +:+ dq +:+ ".to_string()," +:+ nl
  +:+ "    source: " +:+ dq +:+ source +:+ dq +:+ ".to_string()," +:+ nl
  +:+ "    difficulty: QuoteDifficulty::" +:+ difficulty +:+ "," +:+ nl
  +:+ "    category: QuoteCategory::" +:+ category +:+ "," +:+ nl
  +:+ "    origin: " +:+ dq +:+ origin +:+ dq +:+ ".to_string()," +:+ nl
  +:+ "}".


(** ** Well-formed sources *)

(** A block as the pattern reads it: the fixed words, twelve gaps that
    may hold white space, and the five fields.  [gaps] lists the gaps in
    order; a gap the list does not reach is empty. *)
Definition gap (gaps : list string) (i : nat) : string :=
  default EmptyString (gaps !! i).

Definition render (gaps : list string) (q : quote) : string :=
  "Quote" +:+ gap gaps 0 +:+ "{" +:+ gap gaps 1
  +:+ "text:" +:+ gap gaps 2
  +:+ dq +:+ text q +:+ dq +:+ ".to_string()," +:+ gap gaps 3
  +:+ "source:" +:+ gap gaps 4
  +:+ dq +:+ source q +:+ dq +:+ ".to_string()," +:+ gap gaps 5
  +:+ "difficulty:" +:+ gap gaps 6
  +:+ "QuoteDifficulty::" +:+ difficulty q +:+ "," +:+ gap gaps 7
  +:+ "category:" +:+ gap gaps 8
  +:+ "QuoteCategory::" +:+ category q +:+ "," +:+ gap gaps 9
  +:+ "origin:" +:+ gap gaps 10
  +:+ dq +:+ origin q +:+ dq +:+ ".to_string()," +:+ gap gaps 11
  +:+ "}".

Definition blank (gaps : list string) : bool := forallb (all_in Space) gaps.

(** The fields a block can carry: no double quote in the quoted ones, a
    non-empty word for each label. *)
Definition well_formed (q : quote) : bool :=
  all_in NotDquote (text q) && all_in NotDquote (source q)
  && all_in NotDquote (origin q)
  && all_in Word (difficulty q) && negb (is_empty (difficulty q))
  && all_in Word (category q) && negb (is_empty (category q)).

(** No capital Q, the first character of the pattern, in a string. *)
Fixpoint no_Q (s : string) : bool :=
  match s with
  | EmptyString => true
  | String a s' => negb (Ascii.eqb a "Q") && no_Q s'
  end.

(** A source text: blocks, each after some text that is not part of a
    block, and a tail. *)
Fixpoint source_text (blocks : list (string * list string * quote))
    (tail : string) : string :=
  match blocks with
  | [] => tail
  | (before, gaps, q) :: blocks' =>
      before +:+ render gaps q +:+ source_text blocks' tail
  end.

Definition laid_out (b : string * list string * quote) : Prop :=
  no_Q b.1.1 = true ∧ blank b.1.2 = true ∧ well_formed b.2 = true.

(** The sum of the sizes of the category lists of a dictionary. *)
Definition stored (d : gmap string (list quote)) : nat :=
  sum_list ((fun cf : string * string => length (default [] (d !! cf.1)))
              <$> categories).

(** The files hold the text of every record that [content] yields for a
    known category. *)
Definition covers (fs : gmap string (list quote)) (content : string) : Prop :=
  ∀ cat fname q, (cat, fname) ∈ categories → q ∈ batch cat content →
    ∃ F, fs !! path_of fname = Some F ∧ text q ∈ texts F.


(** ** Sample inputs *)

Module Sample.

Definition quoteA : quote := Quote "A" "Anon" "Easy" "Humor" "English".
Definition quoteA' : quote := Quote "A" "Someone else" "Hard" "Humor" "French".
Definition quoteB : quote := Quote "B" "Anon" "Medium" "Humor" "English".

(** The dictionary after an extraction that found [quoteA'] and
    [quoteB], and an output directory whose humor file holds [quoteA]. *)
Definition dict : gmap string (list quote) :=
  <["Humor" := [quoteA'; quoteB]]> quotes_by_category_init.

Definition with_file : world :=
  World dict {[ path_of "humor.json" := [quoteA] ]} [].

Definition without_file : world := World dict ∅ [].

Definition all_known : world :=
  World (<["Humor" := [quoteA']]> quotes_by_category_init)
        {[ path_of "humor.json" := [quoteA] ]} [].

(** Source texts.  [two_same_text] has two blocks with the same text in
    one category; [first_text] and [second_text] have distinct texts. *)
Definition two_same_text : string :=
  "// quotes" +:+ nl
  +:+ rust_block "A" "Anon" "Easy" "Humor" "English" +:+ "," +:+ nl
  +:+ rust_block "A" "Someone else" "Hard" "Humor" "French" +:+ "," +:+ nl.

Definition first_text : string :=
  rust_block "A" "Anon" "Easy" "Humor" "English" +:+ "," +:+ nl
  +:+ rust_block "B" "Anon" "Medium" "Humor" "English" +:+ "," +:+ nl
  +:+ rust_block "A" "Anon" "Easy" "Proverbs" "English".

Definition second_text : string :=
  rust_block "B" "Anon" "Medium" "Humor" "English" +:+ "," +:+ nl
  +:+ rust_block "C" "Anon" "Hard" "Humor" "English".

(** A block with no white space. *)
Definition dense_block (text source difficulty category origin : string) : string :=
  "Quote{text:" +:+ dq +:+ text +:+ dq
  +:+ ".to_string(),source:" +:+ dq +:+ source +:+ dq
  +:+ ".to_string(),difficulty:QuoteDifficulty::" +:+ difficulty
  +:+ ",category:QuoteCategory::" +:+ category
  +:+ ",origin:" +:+ dq +:+ origin +:+ dq +:+ ".to_string(),}".

(** A text in which one block begins inside the text field of another:
    [overlap = outer +:+ overlap_tail = overlap_head +:+ inner]. *)
Definition outer : string :=
  dense_block "Quote{text:" ".to_string(),source:" "E" "Humor"
    ".to_string(),difficulty:QuoteDifficulty::E,category:QuoteCategory::Proverbs,origin:".

Definition overlap_tail : string := dq +:+ ".to_string(),}".

Definition overlap : string := outer +:+ overlap_tail.

Definition overlap_head : string := "Quote{text:" +:+ dq.

Definition inner : string :=
  dense_block ".to_string(),source:"
    ".to_string(),difficulty:QuoteDifficulty::E,category:QuoteCategory::Humor,origin:"
    "E" "Proverbs" ".to_string(),}".

Definition inner_quote : quote :=
  Quote ".to_string(),source:"
    ".to_string(),difficulty:QuoteDifficulty::E,category:QuoteCategory::Humor,origin:"
    "E" "Proverbs" ".to_string(),}".

(** A block whose text holds a backslash and a double quote. *)
Definition escaped : string :=
  rust_block ("say \" +:+ dq +:+ "hi\" +:+ dq) "Anon" "Easy" "Humor" "English".

(** A text with a block of a category the script does not know. *)
Definition quoteZ : quote := Quote "Z" "Anon" "Easy" "Riddles" "English".

Definition with_unknown : string :=
  rust_block "A" "Anon" "Easy" "Humor" "English" +:+ "," +:+ nl
  +:+ rust_block "Z" "Anon" "Easy" "Riddles" "English" +:+ "," +:+ nl.

(** Gaps as [rust_block] lays a block out, and separators. *)
Definition indent : string := nl +:+ "    ".

Definition rust_gaps : list string :=
  [" "; indent; " "; indent; " "; indent; " "; indent; " "; indent; " "; nl].

Definition two_blocks : list (string * list string * quote) :=
  [ ("vec![" +:+ nl, rust_gaps, quoteA);
    ("," +:+ nl, [], quoteZ);
    ("," +:+ nl, rust_gaps, quoteB) ].

(** A file that already holds a record of text [A], from an earlier
    run. *)
Definition quoteA_old : quote := Quote "A" "Earlier run" "Easy" "Humor" "Latin".

Definition holds_A : gmap string (list quote) :=
  {[ path_of "humor.json" := [quoteA_old] ]}.



(** A dictionary without the key of one category. *)
Definition no_humor_key : world :=
  World (delete "Humor" quotes_by_category_init) ∅ [].

End Sample.

(** * Facts *)

(** ** Strings *)

Lemma append_nil_r (s : string) : s +:+ "" = s.
Proof. induction s as [|a s IH]; simpl; [done | by rewrite IH]. Qed.

Lemma append_assoc (s t u : string) : (s +:+ t) +:+ u = s +:+ t +:+ u.
Proof. induction s as [|a s IH]; simpl; [done | by rewrite IH]. Qed.

Lemma length_append (s t : string) :
  String.length (s +:+ t) = String.length s + String.length t.
Proof. induction s as [|a s IH]; simpl; [done | by rewrite IH]. Qed.

Lemma snoc_append (w : string) (a : ascii) (u : string) :
  snoc w a +:+ u = w +:+ String a u.
Proof. unfold snoc. by rewrite append_assoc. Qed.

(** ** The matcher *)

Section Greedy.
Context {R : Type} (c : cclass) (k : string → string → option R).

Lemma longest_beyond (s : string) : s = longest c s +:+ beyond c s.
Proof.
  induction s as [|a s IH]; simpl; [done |].
  destruct (in_class c a); simpl; [by rewrite <- IH | done].
Qed.

Lemma all_in_longest (s : string) : all_in c (longest c s) = true.
Proof.
  induction s as [|a s IH]; simpl; [done |].
  destruct (in_class c a) eqn:E; simpl; [by rewrite E | done].
Qed.

Lemma all_in_app (u v : string) :
  all_in c (u +:+ v) = all_in c u && all_in c v.
Proof.
  induction u as [|a u IH]; simpl; [done |].
  by rewrite IH, andb_assoc.
Qed.

(** A successful greedy repetition took some run of characters of the
    class and went on with the rest of the pattern. *)
Lemma greedy_Some (w s : string) (r : R) :
  greedy c k w s = Some r →
  ∃ u rest, s = u +:+ rest ∧ all_in c u = true ∧ k (w +:+ u) rest = Some r.
Proof.
  revert w. induction s as [|a s IH]; intros w; simpl.
  - intros H. exists "", "". by rewrite ?append_nil_r.
  - destruct (in_class c a) eqn:E.
    + destruct (greedy c k (snoc w a) s) as [r'|] eqn:G.
      * intros [= <-]. destruct (IH _ G) as (u & rest & -> & Hu & Hk).
        exists (String a u), rest. simpl. rewrite E, Hu.
        by rewrite snoc_append in Hk.
      * intros H. exists "", (String a s). by rewrite ?append_nil_r.
    + intros H. exists "", (String a s). by rewrite ?append_nil_r.
Qed.

(** When the rest of the pattern refuses every character of the class,
    only the longest run can succeed. *)
Lemma greedy_det (w s : string) :
  (∀ w' a s', in_class c a = true → k w' (String a s') = None) →
  greedy c k w s = k (w +:+ longest c s) (beyond c s).
Proof.
  intros Hk. revert w. induction s as [|a s IH]; intros w; simpl.
  - by rewrite append_nil_r.
  - destruct (in_class c a) eqn:E.
    + rewrite IH, snoc_append, (Hk w a s E).
      by destruct (k (w +:+ String a (longest c s)) (beyond c s)).
    + by rewrite append_nil_r.
Qed.
End Greedy.

Lemma beyond_not_in (c : cclass) (s : string) (a : ascii) (s' : string) :
  beyond c s = String a s' → in_class c a = false.
Proof.
  induction s as [|b s IH]; simpl; [done |].
  destruct (in_class c b) eqn:E; [done |]. by intros [= <- <-].
Qed.

Lemma longest_stop (c : cclass) (u : string) (a : ascii) (v : string) :
  all_in c u = true → in_class c a = false →
  longest c (u +:+ String a v) = u ∧ beyond c (u +:+ String a v) = String a v.
Proof.
  intros Hu Ha. induction u as [|b u IH]; simpl in *.
  - by rewrite Ha.
  - apply andb_true_iff in Hu as [Hb Hu]. rewrite Hb.
    destruct (IH Hu) as [-> ->]. done.
Qed.

Lemma beyond_app (c : cclass) (s : string) (b : ascii) (t post : string) :
  beyond c s = String b t →
  longest c (s +:+ post) = longest c s
  ∧ beyond c (s +:+ post) = beyond c s +:+ post.
Proof.
  induction s as [|a s IH]; simpl; [done |].
  destruct (in_class c a) eqn:E.
  - intros H. destruct (IH H) as [-> ->]. done.
  - done.
Qed.

(** The captured groups are runs of characters of the groups' classes. *)
Lemma bt_captures (p : pattern) (s : string) (caps caps' : list string) (rest : string) :
  bt p s caps = Some (caps', rest) →
  ∃ new, caps' = caps ++ new ∧ Forall2 captured (groups p) new.
Proof.
  revert s caps. induction p as [|[c|cap ne c] p IH]; intros s caps; simpl.
  - intros [= <- <-]. exists []. by rewrite app_nil_r.
  - destruct s as [|a s]; [done |]. destruct (in_class c a); [apply IH | done].
  - intros H. apply greedy_Some in H as (u & rest' & -> & Hu & Hk).
    simpl in Hk. destruct (ne && is_empty u) eqn:E; [done |].
    apply IH in Hk as (new & -> & Hnew).
    assert (captured (ne, c) u) as Hcap.
    { split; [done |]. simpl. intros -> ->. done. }
    destruct cap.
    + exists (u :: new). rewrite <- app_assoc. split; [done | by constructor].
    + by exists new.
Qed.

(** A match consumes a prefix of the text, at least as long as the number
    of single characters of the pattern. *)
Lemma bt_consumed (p : pattern) (s : string) (caps caps' : list string) (rest : string) :
  bt p s caps = Some (caps', rest) →
  ∃ u, s = u +:+ rest ∧ chars p <= String.length u.
Proof.
  revert s caps. induction p as [|[c|cap ne c] p IH]; intros s caps; simpl.
  - intros [= <- <-]. by exists "".
  - destruct s as [|a s]; [done |]. destruct (in_class c a); [| done].
    intros H. apply IH in H as (u & -> & Hu). exists (String a u). simpl.
    split; [done | lia].
  - intros H. apply greedy_Some in H as (u & rest' & -> & Hu & Hk).
    destruct (ne && is_empty _); [done |].
    apply IH in Hk as (v & -> & Hv). exists (u +:+ v).
    rewrite append_assoc, length_append. split; [done | lia].
Qed.

(** A repetition followed by a literal outside its class takes the
    longest run and never gives a character back. *)
Lemma bt_rep_det (cap ne : bool) (c : cclass) (a : ascii) (p : pattern)
    (s : string) (caps : list string) :
  in_class c a = false →
  bt (Rep cap ne c :: Chr (Exactly a) :: p) s caps =
    if ne && is_empty (longest c s) then None
    else bt (Chr (Exactly a) :: p) (beyond c s)
           (if cap then caps ++ [longest c s] else caps).
Proof.
  intros Ha.
  change (bt (Rep cap ne c :: Chr (Exactly a) :: p) s caps)
    with (greedy c
            (fun w rest =>
               if ne && is_empty w then None
               else bt (Chr (Exactly a) :: p) rest
                      (if cap then caps ++ [w] else caps)) "" s).
  rewrite greedy_det; [done |].
  intros w' b s' Hb. destruct (ne && is_empty w'); [done |]. simpl.
  destruct (Ascii.eqb_spec b a) as [-> |]; [congruence | done].
Qed.

Lemma det_rep (cap ne : bool) (c : cclass) (p : pattern) :
  det (Rep cap ne c :: p) = true →
  ∃ a p', p = Chr (Exactly a) :: p' ∧ in_class c a = false ∧ det p = true.
Proof.
  simpl. destruct p as [|[[| | | |a]|] p']; try done.
  intros [Ha Hp]%andb_true_iff. exists a, p'.
  by apply negb_true_iff in Ha.
Qed.

Lemma bt_chr_nonempty (c : cclass) (p : pattern) (s : string)
    (caps : list string) (r : list string * string) :
  bt (Chr c :: p) s caps = Some r → ∃ b t, s = String b t.
Proof. destruct s as [|b t]; [done | by exists b, t]. Qed.

(** What follows a match does not change it. *)
Lemma bt_extend (p : pattern) (s : string) (caps caps' : list string)
    (rest post : string) :
  det p = true →
  bt p s caps = Some (caps', rest) →
  bt p (s +:+ post) caps = Some (caps', rest +:+ post).
Proof.
  revert s caps. induction p as [|[c|cap ne c] p IH]; intros s caps Hdet.
  - simpl. by intros [= <- <-].
  - simpl. destruct s as [|a s]; [done |]. simpl.
    destruct (in_class c a); [by apply IH | done].
  - destruct (det_rep _ _ _ _ Hdet) as (a & p' & -> & Ha & Hp).
    rewrite !bt_rep_det by done.
    destruct (ne && is_empty (longest c s)) eqn:E; [done |].
    intros H. destruct (bt_chr_nonempty _ _ _ _ _ H) as (b & t & Hb).
    destruct (beyond_app c s b t post Hb) as [-> ->].
    rewrite E. by apply IH.
Qed.

(** A match depends only on the text it consumes. *)
Lemma bt_restrict (p : pattern) (s : string) (caps caps' : list string)
    (rest : string) :
  det p = true →
  bt p s caps = Some (caps', rest) →
  ∃ u, s = u +:+ rest ∧ bt p u caps = Some (caps', "").
Proof.
  revert s caps. induction p as [|[c|cap ne c] p IH]; intros s caps Hdet.
  - simpl. intros [= <- <-]. by exists "".
  - simpl. destruct s as [|a s]; [done |].
    destruct (in_class c a) eqn:E; [| done].
    intros H. apply IH in H as (u & -> & Hu); [| done].
    exists (String a u). simpl. by rewrite E.
  - destruct (det_rep _ _ _ _ Hdet) as (a & p' & -> & Ha & Hp).
    rewrite bt_rep_det by done.
    destruct (ne && is_empty (longest c s)) eqn:E; [done |].
    intros H. apply IH in H as (u & Hs & Hu); [| done].
    destruct (bt_chr_nonempty _ _ _ _ _ Hu) as (b & t & ->).
    assert (in_class c b = false) as Hb.
    { eapply beyond_not_in. exact Hs. }
    exists (longest c s +:+ String b t). split.
    + rewrite append_assoc. simpl. simpl in Hs. rewrite <- Hs.
      apply longest_beyond.
    + rewrite bt_rep_det by done.
      destruct (longest_stop c (longest c s) b t (all_in_longest c s) Hb)
        as [-> ->].
      by rewrite E.
Qed.

(** ** The scan *)

Lemma scan_skip (p : pattern) (u s : string) :
  scan p (u +:+ s) (String.length u) = scan p s 0.
Proof. induction u as [|a u IH]; simpl; [by destruct s | done]. Qed.

(** After a match the scan goes on where the match ended. *)
Lemma scan_match (p : pattern) (a : ascii) (u rest : string) (caps : list string) :
  bt p (String a u +:+ rest) [] = Some (caps, rest) →
  scan p (String a u +:+ rest) 0 = caps :: scan p rest 0.
Proof.
  intros H. simpl in *. rewrite H. f_equal.
  rewrite length_append.
  replace (S (String.length u + String.length rest) - String.length rest - 1)
    with (String.length u) by lia.
  apply scan_skip.
Qed.

(** Text on which no match begins is passed over. *)
Lemma scan_no_match (p : pattern) (pre rest : string) :
  no_match_in p pre rest = true →
  scan p (pre +:+ rest) 0 = scan p rest 0.
Proof.
  induction pre as [|a pre IH]; simpl; [done |].
  destruct (bt p (String a (pre +:+ rest)) []); [done | exact IH].
Qed.

Lemma scan_Forall (p : pattern) (P : list string → Prop) :
  (∀ s caps rest, bt p s [] = Some (caps, rest) → P caps) →
  ∀ s k, Forall P (scan p s k).
Proof.
  intros HP s. induction s as [|a s IH]; intros [|k]; simpl; try done.
  - destruct (bt p "" []) as [[caps rest]|] eqn:E; [| done].
    constructor; [by eapply HP | done].
  - destruct (bt p (String a s) []) as [[caps rest]|] eqn:E; [| done].
    constructor; [by eapply HP | done].
Qed.

(** Every match the scan reports is the match of a piece of the text. *)
Lemma scan_sound (p : pattern) (s : string) (k : nat) (caps : list string) :
  det p = true →
  caps ∈ scan p s k →
  ∃ pre block post, s = pre +:+ block +:+ post ∧ bt p block [] = Some (caps, "").
Proof.
  intros Hdet. revert k. induction s as [|a s IH]; intros [|k]; simpl.
  - destruct (bt p "" []) as [[caps' rest]|] eqn:E; [| by intros ?%elem_of_nil].
    intros ->%list_elem_of_singleton.
    destruct (bt_restrict _ _ _ _ _ Hdet E) as (u & Hs & Hu).
    exists "", u, rest. done.
  - by intros ?%elem_of_nil.
  - assert (∀ k', caps ∈ scan p s k' →
        ∃ pre block post, String a s = pre +:+ block +:+ post
                          ∧ bt p block [] = Some (caps, "")) as Hlater.
    { intros k' H. destruct (IH _ H) as (pre & block & post & -> & Hb).
      by exists (String a pre), block, post. }
    destruct (bt p (String a s) []) as [[caps' rest]|] eqn:E; [| by apply Hlater].
    intros [-> | H]%elem_of_cons; [| by eapply Hlater].
    destruct (bt_restrict _ _ _ _ _ Hdet E) as (u & Hs & Hu).
    exists "", u, rest. done.
  - intros H. destruct (IH _ H) as (pre & block & post & -> & Hb).
    by exists (String a pre), block, post.
Qed.

(** ** The pattern of the script *)

Lemma quote_pattern_det : det quote_pattern = true.
Proof. reflexivity. Qed.

Lemma quote_pattern_groups :
  groups quote_pattern =
    [(false, NotDquote); (false, NotDquote); (true, Word); (true, Word);
     (false, NotDquote)].
Proof. reflexivity. Qed.

(** A match of the pattern captures five groups. *)
Lemma quote_pattern_captures (s : string) (caps : list string) (rest : string) :
  bt quote_pattern s [] = Some (caps, rest) →
  ∃ t so d c o,
    caps = [t; so; d; c; o]
    ∧ all_in NotDquote t = true ∧ all_in NotDquote so = true
    ∧ (all_in Word d = true ∧ d ≠ "") ∧ (all_in Word c = true ∧ c ≠ "")
    ∧ all_in NotDquote o = true.
Proof.
  intros H. apply bt_captures in H as (new & -> & Hnew).
  rewrite quote_pattern_groups in Hnew.
  repeat match goal with
         | H : Forall2 _ (_ :: _) _ |- _ =>
             apply Forall2_cons_inv_l in H as (? & ? & [? ?] & ? & ->)
         | H : Forall2 _ [] _ |- _ => apply Forall2_nil_inv_l in H as ->
         end.
  simpl in *. eexists _, _, _, _, _. repeat split; eauto.
Qed.

(** ** The extractor *)

Lemma findall_unpack (content : string) :
  Forall (fun m => is_Some (unpack m)) (findall quote_pattern content).
Proof.
  apply scan_Forall. intros s caps rest H.
  apply quote_pattern_captures in H as (t & so & d & c & o & -> & _).
  by eexists.
Qed.

Lemma omap_unpack_cons (m : list string) (ms : list (list string)) (q : quote) :
  unpack m = Some q → omap unpack (m :: ms) = q :: omap unpack ms.
Proof. intros H. simpl. by rewrite H. Qed.

Lemma length_extracted (content : string) :
  length (extracted content) = length (findall quote_pattern content).
Proof.
  unfold extracted. induction (findall_unpack content) as [|m ms [q Hq] _ IH];
    [done |].
  rewrite (omap_unpack_cons _ _ _ Hq). simpl. by rewrite IH.
Qed.

Lemma add_match_unpack (m : list string) (q : quote) (w : world) :
  unpack m = Some q →
  add_match m w =
    match quotes_by_category w !! category q with
    | Some l =>
        Some (set_quotes (<[category q := l ++ [q]]> (quotes_by_category w)) w)
    | None => Some (print (UnknownCategory (category q)) w)
    end.
Proof. intros H. unfold add_match. by rewrite H. Qed.

(** The loop over the matches: it touches no file, appends the records of
    each category the dictionary has a key for to that key's list, and
    prints a line for each record of another category. *)
Lemma for_each_add_match (ms : list (list string)) (w : world) :
  Forall (fun m => is_Some (unpack m)) ms →
  ∃ w', for_each add_match ms w = Some w'
    ∧ files w' = files w
    ∧ (∀ c, quotes_by_category w' !! c =
            (fun l => l ++ filter (fun q => category q = c) (omap unpack ms))
              <$> quotes_by_category w !! c)
    ∧ stdout w' =
        stdout w ++ ((fun q => UnknownCategory (category q)) <$>
          filter (fun q => quotes_by_category w !! category q = None)
            (omap unpack ms)).
Proof.
  intros Hms. revert w. induction Hms as [|m ms [q Hq] _ IH]; intros w.
  - exists w. simpl. split_and!; [done | done | | by rewrite app_nil_r].
    intros c. destruct (quotes_by_category w !! c); simpl; [| done].
    by rewrite app_nil_r.
  - cbn [for_each]. rewrite (add_match_unpack _ _ _ Hq), (omap_unpack_cons _ _ _ Hq).
    destruct (quotes_by_category w !! category q) as [l|] eqn:El.
    + destruct (IH (set_quotes (<[category q := l ++ [q]]> (quotes_by_category w)) w))
        as (w' & -> & Hf & Hq' & Ho).
      exists w'. split_and!; [done | done | |].
      * intros c. rewrite Hq'. simpl.
        destruct (decide (category q = c)) as [<- | Hne].
        -- rewrite lookup_insert_eq, El. simpl.
           rewrite filter_cons_True by done. by rewrite <- app_assoc.
        -- rewrite lookup_insert_ne by done.
           by rewrite filter_cons_False by done.
      * rewrite Ho. simpl. f_equal. f_equal.
        rewrite filter_cons_False by congruence.
        apply list_filter_iff. intros q'.
        destruct (decide (category q = category q')) as [<- | Hne].
        -- rewrite lookup_insert_eq, El. done.
        -- by rewrite lookup_insert_ne.
    + destruct (IH (print (UnknownCategory (category q)) w))
        as (w' & -> & Hf & Hq' & Ho).
      exists w'. split_and!; [done | done | |].
      * intros c. rewrite Hq'. simpl.
        destruct (decide (category q = c)) as [<- | Hne].
        -- by rewrite El.
        -- by rewrite filter_cons_False by done.
      * rewrite Ho. simpl. rewrite filter_cons_True by done.
        by rewrite <- app_assoc.
Qed.

Lemma extract_spec (file_path content : string) (w : world) :
  ∃ w', extract_quotes_from_file file_path content w = Some w'
    ∧ files w' = files w
    ∧ (∀ c, quotes_by_category w' !! c =
            (fun l => l ++ batch c content) <$> quotes_by_category w !! c)
    ∧ stdout w' =
        stdout w
        ++ [Parsing file_path; Found (length (extracted content))]
        ++ ((fun q => UnknownCategory (category q)) <$>
             filter (fun q => quotes_by_category w !! category q = None)
               (extracted content)).
Proof.
  unfold extract_quotes_from_file.
  destruct (for_each_add_match (findall quote_pattern content)
              (print (Found (length (findall quote_pattern content)))
                 (print (Parsing file_path) w)) (findall_unpack content))
    as (w' & -> & Hf & Hq & Ho).
  exists w'. split_and!; [done | done | done |].
  rewrite Ho. simpl. rewrite length_extracted, <- !app_assoc. done.
Qed.

(** ** The merge-writer *)

#[local] Arguments path_of : simpl never.

Lemma fresh_set (e quotes : list quote) :
  filter (fun q => text q ∉ (list_to_set (text <$> e) : gset string)) quotes
  = fresh e quotes.
Proof.
  apply list_filter_iff. intros q. unfold texts. by rewrite elem_of_list_to_set.
Qed.

(** One round of the loop: the category's file becomes [merged], nothing
    else changes. *)
Lemma save_category_spec (cat fname : string) (w : world) (quotes : list quote) :
  quotes_by_category w !! cat = Some quotes →
  ∃ w', save_category (cat, fname) w = Some w'
    ∧ quotes_by_category w' = quotes_by_category w
    ∧ files w' !! path_of fname = merged (files w !! path_of fname) quotes
    ∧ ∀ path, path ≠ path_of fname → files w' !! path = files w !! path.
Proof.
  intros Hq. unfold save_category. rewrite Hq.
  destruct quotes as [|q qs].
  - eexists. split; [reflexivity |]. simpl. split_and!; [done | | done].
    destruct (files w !! path_of fname); simpl; [| done].
    by rewrite app_nil_r.
  - destruct (files w !! path_of fname) as [e|] eqn:Ee.
    + rewrite fresh_set. simpl merged.
      destruct (fresh e (q :: qs)) as [|n ns].
      * eexists. split; [reflexivity |]. simpl. split_and!; [done | | done].
        by rewrite Ee, app_nil_r.
      * eexists. split; [reflexivity |]. simpl. split_and!; [done | |].
        -- by rewrite lookup_insert_eq.
        -- intros path Hne. by rewrite lookup_insert_ne.
    + eexists. split; [reflexivity |]. simpl. split_and!; [done | |].
      * by rewrite lookup_insert_eq.
      * intros path Hne. by rewrite lookup_insert_ne.
Qed.

#[local] Instance path_of_inj : Inj (=) (=) path_of.
Proof. unfold path_of. apply _. Qed.

Lemma for_each_save (cats : list (string * string)) (w : world) :
  NoDup cats.*2 →
  (∀ cat fname, (cat, fname) ∈ cats → is_Some (quotes_by_category w !! cat)) →
  ∃ w', for_each save_category cats w = Some w'
    ∧ quotes_by_category w' = quotes_by_category w
    ∧ (∀ cat fname quotes,
         (cat, fname) ∈ cats → quotes_by_category w !! cat = Some quotes →
         files w' !! path_of fname = merged (files w !! path_of fname) quotes)
    ∧ (∀ path, path ∉ path_of <$> cats.*2 → files w' !! path = files w !! path).
Proof.
  revert w. induction cats as [|[cat0 f0] cats IH]; intros w Hnd Hkeys.
  - exists w. split_and!; [done | done | | done].
    by intros ? ? ? ?%elem_of_nil.
  - apply NoDup_cons in Hnd as [Hf0 Hnd]. simpl in Hf0.
    destruct (Hkeys cat0 f0) as [quotes0 Hq0]; [by left |].
    destruct (save_category_spec cat0 f0 w quotes0 Hq0)
      as (w1 & Hs1 & Hq1 & Hf1 & Ho1).
    destruct (IH w1 Hnd) as (w' & Hs' & Hq' & Hf' & Ho').
    { intros cat fname Hin. rewrite Hq1. eapply Hkeys. by right. }
    exists w'. cbn [for_each]. rewrite Hs1. split_and!; [done | congruence | |].
    + intros cat fname quotes [[= -> ->] | Hin]%elem_of_cons Hq.
      * rewrite Ho'.
        -- rewrite Hf1. congruence.
        -- intros (f & Hf & Hin)%list_elem_of_fmap.
           apply (inj path_of) in Hf as <-. done.
      * rewrite (Hf' cat fname quotes Hin) by congruence.
        rewrite Ho1; [done |].
        intros Heq%(inj path_of). subst f0. apply Hf0.
        apply list_elem_of_fmap. by exists (cat, fname).
    + intros path Hpath. rewrite Ho'.
      * apply Ho1. intros ->. apply Hpath. simpl. by left.
      * intros Hin. apply Hpath. simpl. by right.
Qed.

Lemma categories_NoDup : NoDup categories.*2.
Proof. by apply (bool_decide_unpack _). Qed.

Lemma categories_init (cat fname : string) :
  (cat, fname) ∈ categories → quotes_by_category_init !! cat = Some [].
Proof.
  unfold categories.
  intros H. repeat (apply elem_of_cons in H as [[= -> ->] | H]; [done |]).
  by apply elem_of_nil in H.
Qed.

Lemma categories_init_None (cat : string) :
  cat ∉ categories.*1 → quotes_by_category_init !! cat = None.
Proof.
  intros H. unfold quotes_by_category_init.
  apply not_elem_of_list_to_map_1. by rewrite <- list_fmap_compose.
Qed.

(** The merge-writer on a dictionary that has the seven keys. *)
Lemma save_spec (w : world) :
  (∀ cat fname, (cat, fname) ∈ categories → is_Some (quotes_by_category w !! cat)) →
  ∃ w', save_quotes_to_json w = Some w'
    ∧ quotes_by_category w' = quotes_by_category w
    ∧ (∀ cat fname quotes,
         (cat, fname) ∈ categories → quotes_by_category w !! cat = Some quotes →
         files w' !! path_of fname = merged (files w !! path_of fname) quotes)
    ∧ (∀ path, path ∉ path_of <$> categories.*2 →
               files w' !! path = files w !! path).
Proof. apply for_each_save, categories_NoDup. Qed.

(** A run of the script: every category's file becomes [merged] of what
    it held and the records extracted for the category; no other file
    changes. *)
Lemma main_spec (content : string) (files0 : gmap string (list quote)) :
  ∃ w, main content files0 = Some w
    ∧ (∀ cat fname, (cat, fname) ∈ categories →
         files w !! path_of fname =
           merged (files0 !! path_of fname) (batch cat content))
    ∧ (∀ path, path ∉ path_of <$> categories.*2 →
               files w !! path = files0 !! path).
Proof.
  unfold main.
  destruct (extract_spec "src/quotes.rs" content
              (World quotes_by_category_init files0 []))
    as (w1 & -> & Hf1 & Hq1 & _).
  simpl in Hf1, Hq1.
  assert (∀ cat fname, (cat, fname) ∈ categories →
            quotes_by_category w1 !! cat = Some (batch cat content)) as Hb.
  { intros cat fname Hin. by rewrite Hq1, (categories_init _ _ Hin). }
  destruct (save_spec w1) as (w2 & -> & Hq2 & Hf2 & Ho2).
  { intros cat fname Hin. rewrite (Hb _ _ Hin). by eexists. }
  eexists. split_and!; [done | |]; simpl.
  - intros cat fname Hin. rewrite (Hf2 _ _ _ Hin (Hb _ _ Hin)). by rewrite Hf1.
  - intros path Hpath. rewrite Ho2 by done. by rewrite Hf1.
Qed.

(** Closed decidable facts, by evaluation. *)
Ltac by_evaluation := apply (bool_decide_unpack _); vm_compute; exact I.

Lemma has_keys_Forall (q : gmap string (list quote)) :
  Forall (fun cf : string * string => is_Some (q !! cf.1)) categories →
  has_keys q.
Proof.
  intros H cat fname Hin. rewrite Forall_forall in H. exact (H _ Hin).
Qed.

(** ** The claims about the merge-writer *)

(** C1. For a category whose file holds the records [E] and for which the
    records [N] were extracted, the merge-writer leaves in that same file
    [E], unchanged and in order, followed by exactly the records of [N]
    whose [text] is not the [text] of a record of [E]. *)
Theorem C1_merge_appends_unseen_texts (w : world) (cat fname : string)
    (E N : list quote) :
  (cat, fname) ∈ categories →
  has_keys (quotes_by_category w) →
  quotes_by_category w !! cat = Some N →
  files w !! path_of fname = Some E →
  ∃ w', save_quotes_to_json w = Some w'
    ∧ files w' !! path_of fname
      = Some (E ++ filter (fun q => text q ∉ text <$> E) N).
Proof.
  intros Hin Hkeys HN HE.
  destruct (save_spec w Hkeys) as (w' & Hs & _ & Hf & _).
  exists w'. split; [done |].
  rewrite (Hf cat fname N Hin HN), HE. done.
Qed.

Lemma C1_witness :
  ∃ w', save_quotes_to_json Sample.with_file = Some w'
    ∧ files w' !! path_of "humor.json"
      = Some ([Sample.quoteA]
              ++ filter (fun q => text q ∉ text <$> [Sample.quoteA])
                   [Sample.quoteA'; Sample.quoteB]).
Proof.
  apply (C1_merge_appends_unseen_texts Sample.with_file "Humor" "humor.json").
  - by_evaluation.
  - apply has_keys_Forall. by_evaluation.
  - reflexivity.
  - reflexivity.
Defined.

(** C6. For a category that has no file yet and at least one extracted
    record, the merge-writer creates the file with exactly the extracted
    records of the category. *)
Theorem C6_first_file_holds_the_batch (w : world) (cat fname : string)
    (N : list quote) :
  (cat, fname) ∈ categories →
  has_keys (quotes_by_category w) →
  quotes_by_category w !! cat = Some N →
  N ≠ [] →
  files w !! path_of fname = None →
  ∃ w', save_quotes_to_json w = Some w'
    ∧ files w' !! path_of fname = Some N.
Proof.
  intros Hin Hkeys HN Hne HE.
  destruct (save_spec w Hkeys) as (w' & Hs & _ & Hf & _).
  exists w'. split; [done |].
  rewrite (Hf cat fname N Hin HN), HE. by destruct N.
Qed.

Lemma C6_witness :
  ∃ w', save_quotes_to_json Sample.without_file = Some w'
    ∧ files w' !! path_of "humor.json" = Some [Sample.quoteA'; Sample.quoteB].
Proof.
  apply (C6_first_file_holds_the_batch Sample.without_file "Humor" "humor.json").
  - by_evaluation.
  - apply has_keys_Forall. by_evaluation.
  - reflexivity.
  - discriminate.
  - reflexivity.
Defined.

Lemma fresh_all_seen (E N : list quote) :
  (∀ q, q ∈ N → text q ∈ texts E) → fresh E N = [].
Proof.
  intros H. induction N as [|q N IH]; [done |].
  unfold fresh. rewrite filter_cons_False.
  - apply IH. intros q' Hq'. apply H. by right.
  - intros Hq. apply Hq, H. by left.
Qed.

(** C7. A category with no new record (none extracted, or every extracted
    record's [text] already in the file) has its file left as it is: an
    absent file stays absent, an existing file keeps its content.  The
    category's round of the loop only prints its skip line. *)
Theorem C7_no_new_record_no_write (w : world) (cat fname : string)
    (N : list quote) :
  (cat, fname) ∈ categories →
  has_keys (quotes_by_category w) →
  quotes_by_category w !! cat = Some N →
  N = [] ∨ (∃ E, files w !! path_of fname = Some E
                 ∧ ∀ q, q ∈ N → text q ∈ text <$> E) →
  (∃ w', save_quotes_to_json w = Some w'
     ∧ files w' !! path_of fname = files w !! path_of fname)
  ∧ save_category (cat, fname) w
    = Some (print (if decide (N = []) then NoQuotesFound cat
                   else NoNewQuotes cat) w).
Proof.
  intros Hin Hkeys HN Hcase. split.
  - destruct (save_spec w Hkeys) as (w' & Hs & _ & Hf & _).
    exists w'. split; [done |].
    rewrite (Hf cat fname N Hin HN).
    destruct Hcase as [-> | (E & HE & Hseen)].
    + destruct (files w !! path_of fname); simpl; [| done].
      by rewrite app_nil_r.
    + rewrite HE. simpl. by rewrite (fresh_all_seen E N Hseen), app_nil_r.
  - unfold save_category. rewrite HN.
    destruct Hcase as [-> | (E & HE & Hseen)]; [done |].
    destruct N as [|q N]; [done |].
    rewrite HE, fresh_set, (fresh_all_seen E (q :: N) Hseen). done.
Qed.

Lemma C7_witness :
  (∃ w', save_quotes_to_json Sample.all_known = Some w'
     ∧ files w' !! path_of "humor.json"
       = files Sample.all_known !! path_of "humor.json")
  ∧ save_category ("Humor", "humor.json") Sample.all_known
    = Some (print (if decide ([Sample.quoteA'] = []) then NoQuotesFound "Humor"
                   else NoNewQuotes "Humor") Sample.all_known).
Proof.
  apply (C7_no_new_record_no_write Sample.all_known "Humor" "humor.json").
  - by_evaluation.
  - apply has_keys_Forall. by_evaluation.
  - reflexivity.
  - right. exists [Sample.quoteA]. split; [reflexivity |].
    intros q ->%list_elem_of_singleton. by_evaluation.
Defined.

(** ** Runs of the whole script *)

Lemma category_path_dec (path : string) :
  (∃ cat fname, (cat, fname) ∈ categories ∧ path = path_of fname)
  ∨ path ∉ path_of <$> categories.*2.
Proof.
  destruct (decide (path ∈ path_of <$> categories.*2)) as [Hin | Hout]; [| by right].
  left. apply list_elem_of_fmap in Hin as (fname & -> & Hin).
  apply list_elem_of_fmap in Hin as ([cat fname'] & -> & Hin).
  by exists cat, fname'.
Qed.

Lemma fresh_app_self (E N : list quote) : fresh (E ++ fresh E N) N = [].
Proof.
  apply fresh_all_seen. intros q Hq. unfold texts. rewrite fmap_app.
  destruct (decide (text q ∈ texts E)) as [Hin | Hout].
  - apply elem_of_app. by left.
  - apply elem_of_app. right. apply list_elem_of_fmap_2.
    apply list_elem_of_filter. done.
Qed.

Lemma fresh_self (N : list quote) : fresh N N = [].
Proof. apply fresh_all_seen. intros q Hq. by apply list_elem_of_fmap_2. Qed.

(** Merging the same records a second time changes nothing. *)
Lemma merged_idempotent (old : option (list quote)) (N : list quote) :
  merged (merged old N) N = merged old N.
Proof.
  destruct old as [E|]; simpl.
  - by rewrite fresh_app_self, app_nil_r.
  - destruct N as [|q N]; [done |]. simpl.
    by rewrite fresh_self, app_nil_r.
Qed.

(** C2. Running the script a second time on the same source text, after
    the first run has written its files, leaves every file as the first
    run left it. *)
Theorem C2_second_run_changes_nothing (content : string)
    (files0 : gmap string (list quote)) :
  ∃ files1, run content files0 = Some files1
    ∧ run content files1 = Some files1.
Proof.
  unfold run.
  destruct (main_spec content files0) as (w1 & H1 & Hc1 & Ho1).
  destruct (main_spec content (files w1)) as (w2 & H2 & Hc2 & Ho2).
  exists (files w1). rewrite H1, H2. split; [done |]. simpl. f_equal.
  apply map_eq. intros path.
  destruct (category_path_dec path) as [(cat & fname & Hin & ->) | Hout].
  - rewrite (Hc2 _ _ Hin), (Hc1 _ _ Hin). apply merged_idempotent.
  - by apply Ho2.
Qed.

Lemma merged_NoDup (old : option (list quote)) (N F : list quote) :
  (∀ E, old = Some E → NoDup (texts E)) →
  NoDup (texts N) →
  merged old N = Some F →
  NoDup (texts F).
Proof.
  intros Hold HN. destruct old as [E|]; simpl.
  - intros [= <-]. unfold texts. rewrite fmap_app. apply NoDup_app.
    split_and!.
    + by apply Hold.
    + intros t Ht (q & -> & Hq)%list_elem_of_fmap.
      apply list_elem_of_filter in Hq as [Hq _]. done.
    + eapply sublist_NoDup; [exact HN |].
      apply fmap_sublist, sublist_filter.
  - destruct N; [done |]. by intros [= <-].
Qed.

Lemma run_distinct_texts (content : string) (files0 : gmap string (list quote)) :
  distinct_batches content →
  distinct_texts files0 →
  ∃ files1, run content files0 = Some files1 ∧ distinct_texts files1.
Proof.
  intros Hb H0. unfold run.
  destruct (main_spec content files0) as (w1 & -> & Hc1 & Ho1).
  exists (files w1). split; [done |]. intros path F HF.
  destruct (category_path_dec path) as [(cat & fname & Hin & ->) | Hout].
  - rewrite (Hc1 _ _ Hin) in HF.
    eapply merged_NoDup; [| by eapply Hb | exact HF].
    intros E HE. by eapply H0.
  - rewrite (Ho1 _ Hout) in HF. by eapply H0.
Qed.

Lemma runs_distinct_texts (contents : list string)
    (files0 : gmap string (list quote)) :
  Forall distinct_batches contents →
  distinct_texts files0 →
  ∃ files1, runs contents files0 = Some files1 ∧ distinct_texts files1.
Proof.
  intros Hb. revert files0. induction Hb as [|content contents Hc _ IH];
    intros files0 H0; simpl.
  - by exists files0.
  - destruct (run_distinct_texts content files0 Hc H0) as (files1 & -> & H1).
    by apply IH.
Qed.

Lemma distinct_batches_Forall (content : string) :
  Forall (fun cf : string * string => NoDup (texts (batch cf.1 content)))
    categories →
  distinct_batches content.
Proof.
  intros H cat fname Hin. rewrite Forall_forall in H. exact (H _ Hin).
Qed.

(** C4, as stated, fails: one run on a source text with two blocks of the
    same text in one category, from an empty output directory, leaves a
    file with that text twice. *)
Lemma C4_counterexample :
  ¬ (∀ contents files1, runs contents ∅ = Some files1 → distinct_texts files1).
Proof.
  intros H.
  destruct (runs [Sample.two_same_text] ∅) as [files1|] eqn:E.
  - specialize (H _ _ E (path_of "humor.json")).
    assert (files1 !! path_of "humor.json"
            = Some [Sample.quoteA; Sample.quoteA']) as Hf.
    { assert ((fun fs : gmap string (list quote) => fs !! path_of "humor.json")
                <$> runs [Sample.two_same_text] ∅
              = Some (Some [Sample.quoteA; Sample.quoteA'])) as Hr
        by (vm_compute; reflexivity).
      rewrite E in Hr. by injection Hr. }
    specialize (H _ Hf). apply NoDup_cons in H as [H _].
    apply H. by left.
  - assert (is_Some (runs [Sample.two_same_text] ∅)) as [? Hr]
      by (vm_compute; by eexists).
    congruence.
Qed.

(** C4, amended.  When the records each run extracts for a category have
    pairwise distinct [text] values, then after any sequence of runs that
    starts with no output file the [text] values in every file are
    pairwise distinct. *)
Theorem C4_texts_distinct_when_batches_are (contents : list string) :
  Forall distinct_batches contents →
  ∃ files1, runs contents ∅ = Some files1 ∧ distinct_texts files1.
Proof.
  intros Hb. apply runs_distinct_texts; [done |].
  intros path E HE. by rewrite lookup_empty in HE.
Qed.

Lemma C4_witness :
  ∃ files1,
    runs [Sample.first_text; Sample.first_text; Sample.second_text] ∅
      = Some files1
    ∧ distinct_texts files1.
Proof.
  apply (C4_texts_distinct_when_batches_are
           [Sample.first_text; Sample.first_text; Sample.second_text]).
  repeat constructor; apply distinct_batches_Forall; by_evaluation.
Defined.

(** ** The claims about the extractor *)

Lemma extracted_Forall (P : quote → Prop) (content : string) :
  (∀ s caps rest q,
     bt quote_pattern s [] = Some (caps, rest) → unpack caps = Some q → P q) →
  Forall P (extracted content).
Proof.
  intros HP. unfold extracted, findall.
  assert (Forall (fun caps => ∀ q, unpack caps = Some q → P q)
            (scan quote_pattern content 0)) as H.
  { apply scan_Forall. intros s caps rest Hb q Hq. by eapply HP. }
  induction H as [|caps l Hcaps _ IH]; [constructor |].
  simpl. destruct (unpack caps) as [q|] eqn:E; [| exact IH].
  constructor; [by apply Hcaps | exact IH].
Qed.

Lemma quote_pattern_nonempty (block rest : string) (caps : list string) :
  bt quote_pattern (block +:+ rest) [] = Some (caps, rest) →
  ∃ a u, block = String a u.
Proof.
  intros H. destruct block as [|a u]; [| by exists a, u].
  destruct (bt_consumed _ _ _ _ _ H) as (v & Hv & Hlen). simpl in Hv.
  assert (String.length v = 0) as H0.
  { apply (f_equal String.length) in Hv. rewrite length_append in Hv. lia. }
  rewrite H0 in Hlen. vm_compute in Hlen. lia.
Qed.

Lemma extracted_block (pre block post : string) (caps : list string) :
  bt quote_pattern block [] = Some (caps, "") →
  no_match_in quote_pattern pre (block +:+ post) = true →
  findall quote_pattern (pre +:+ block +:+ post)
  = caps :: findall quote_pattern post.
Proof.
  intros Hb Hpre.
  pose proof (bt_extend _ _ _ _ _ post quote_pattern_det Hb) as He.
  simpl in He.
  destruct (quote_pattern_nonempty block post caps He) as (a & u & ->).
  unfold findall. rewrite (scan_no_match _ _ _ Hpre).
  by apply scan_match.
Qed.

(** C3, as stated, fails: [Sample.inner] is a piece of [Sample.overlap]
    that matches the pattern, and the extractor yields no record for it,
    because it begins inside the match of [Sample.outer]. *)
Lemma C3_counterexample :
  ¬ (∀ pre block post caps q,
       bt quote_pattern block [] = Some (caps, "") →
       unpack caps = Some q →
       q ∈ extracted (pre +:+ block +:+ post)).
Proof.
  intros H.
  assert (Sample.inner_quote
            ∈ extracted (Sample.overlap_head +:+ Sample.inner +:+ "")) as Hin.
  { apply (H Sample.overlap_head Sample.inner ""
             [text Sample.inner_quote; source Sample.inner_quote;
              difficulty Sample.inner_quote; category Sample.inner_quote;
              origin Sample.inner_quote]);
      vm_compute; reflexivity. }
  assert (Sample.inner_quote
            ∉ extracted (Sample.overlap_head +:+ Sample.inner +:+ "")) as Hout
    by by_evaluation.
  exact (Hout Hin).
Qed.

(** C3, amended.  A block that matches the pattern and that the scan
    reaches, no match beginning in the text before it, yields exactly one
    record, whose five fields are the captured groups of the block; the
    records that follow are those of the text after the block. *)
Theorem C3_reached_block_yields_its_record (pre block post : string)
    (caps : list string) :
  bt quote_pattern block [] = Some (caps, "") →
  no_match_in quote_pattern pre (block +:+ post) = true →
  ∃ q, caps = [text q; source q; difficulty q; category q; origin q]
    ∧ extracted (pre +:+ block +:+ post) = q :: extracted post.
Proof.
  intros Hb Hpre.
  destruct (quote_pattern_captures _ _ _ Hb) as (t & so & d & c & o & -> & _).
  exists (Quote t so d c o). split; [done |].
  unfold extracted. by rewrite (extracted_block _ _ _ _ Hb Hpre).
Qed.

Lemma C3_witness :
  ∃ q, ["A"; "Anon"; "Easy"; "Humor"; "English"]
       = [text q; source q; difficulty q; category q; origin q]
    ∧ extracted (("// quotes" +:+ nl)
                 +:+ rust_block "A" "Anon" "Easy" "Humor" "English"
                 +:+ ("," +:+ nl +:+ Sample.second_text))
      = q :: extracted ("," +:+ nl +:+ Sample.second_text).
Proof.
  apply (C3_reached_block_yields_its_record ("// quotes" +:+ nl)
           (rust_block "A" "Anon" "Easy" "Humor" "English")
           ("," +:+ nl +:+ Sample.second_text));
    vm_compute; reflexivity.
Defined.


(** ** The claims about the categorizer *)

Lemma save_category_stdout (cf : string * string) (w w' : world) :
  save_category cf w = Some w' → ∃ l, stdout w' = stdout w ++ l.
Proof.
  destruct cf as [cat fname]. unfold save_category.
  destruct (quotes_by_category w !! cat) as [[|q qs]|]; [| | done].
  - intros [= <-]. by eexists.
  - destruct (files w !! path_of fname) as [e|].
    + destruct (filter _ (q :: qs)).
      * intros [= <-]. by eexists.
      * intros [= <-]. simpl. rewrite <- app_assoc. by eexists.
    + intros [= <-]. simpl. rewrite <- app_assoc. by eexists.
Qed.

Lemma for_each_save_stdout (cats : list (string * string)) (w w' : world) :
  for_each save_category cats w = Some w' → ∃ l, stdout w' = stdout w ++ l.
Proof.
  revert w. induction cats as [|cf cats IH]; intros w; simpl.
  - intros [= <-]. exists []. by rewrite app_nil_r.
  - destruct (save_category cf w) as [w1|] eqn:E; [| done].
    intros H. apply IH in H as [l2 ->].
    apply save_category_stdout in E as [l1 ->].
    exists (l1 ++ l2). by rewrite app_assoc.
Qed.

(** The lines of the extractor are among those of the whole run. *)
Lemma main_stdout (content : string) (files0 : gmap string (list quote))
    (w : world) (q : quote) :
  main content files0 = Some w →
  q ∈ extracted content →
  category q ∉ categories.*1 →
  UnknownCategory (category q) ∈ stdout w.
Proof.
  unfold main. intros Hmain Hq Hcat.
  destruct (extract_spec "src/quotes.rs" content
              (World quotes_by_category_init files0 []))
    as (w1 & H1 & _ & _ & Ho1).
  rewrite H1 in Hmain.
  destruct (save_quotes_to_json w1) as [w2|] eqn:E2; [| done].
  injection Hmain as <-.
  apply for_each_save_stdout in E2 as [l Hl]. simpl. rewrite Hl, Ho1. simpl.
  do 2 right. apply elem_of_app. left. apply elem_of_app. left.
  apply (list_elem_of_fmap_2 (fun q => UnknownCategory (category q))).
  apply list_elem_of_filter. split; [| done].
  by apply categories_init_None.
Qed.

Lemma elem_of_merged (old : option (list quote)) (N F : list quote) (q : quote) :
  merged old N = Some F → q ∈ F →
  (∃ E, old = Some E ∧ q ∈ E) ∨ q ∈ N.
Proof.
  destruct old as [E|]; simpl.
  - intros [= <-] [HE | HN]%elem_of_app.
    + left. by exists E.
    + right. by apply list_elem_of_filter in HN as [_ HN].
  - destruct N; [done |]. intros [= <-] H. by right.
Qed.

(** C5. A record the extractor builds whose category is none of the seven
    known names reaches no output file: after the run it is in a file
    only if it was in that file before.  The run goes on, and the line
    reporting the unknown category is printed; the record's round of the
    loop does nothing but print it. *)
Theorem C5_unknown_category_is_dropped (content : string)
    (files0 : gmap string (list quote)) (q : quote) :
  q ∈ extracted content →
  category q ∉ categories.*1 →
  ∃ w, main content files0 = Some w
    ∧ (∀ path F, files w !! path = Some F → q ∈ F →
         ∃ E, files0 !! path = Some E ∧ q ∈ E)
    ∧ UnknownCategory (category q) ∈ stdout w
    ∧ (∀ m w0, unpack m = Some q →
         dom (quotes_by_category w0) = dom quotes_by_category_init →
         add_match m w0 = Some (print (UnknownCategory (category q)) w0)).
Proof.
  intros Hq Hcat.
  destruct (main_spec content files0) as (w & Hmain & Hc & Ho).
  exists w. split_and!; [done | | by eapply main_stdout |].
  - intros path F HF HqF.
    destruct (category_path_dec path) as [(cat & fname & Hin & ->) | Hout].
    + rewrite (Hc _ _ Hin) in HF.
      destruct (elem_of_merged _ _ _ _ HF HqF) as [(E & HE & HqE) | Hb].
      * by exists E.
      * apply list_elem_of_filter in Hb as [Hb _]. exfalso. apply Hcat.
        rewrite Hb. apply list_elem_of_fmap. by exists (cat, fname).
    + rewrite (Ho _ Hout) in HF. by exists F.
  - intros m w0 Hm Hdom. rewrite (add_match_unpack _ _ _ Hm).
    assert (quotes_by_category w0 !! category q = None) as ->; [| done].
    apply not_elem_of_dom. rewrite Hdom. apply not_elem_of_dom.
    by apply categories_init_None.
Qed.

Lemma C5_witness :
  ∃ w, main Sample.with_unknown ∅ = Some w
    ∧ (∀ path F, files w !! path = Some F → Sample.quoteZ ∈ F →
         ∃ E, (∅ : gmap string (list quote)) !! path = Some E ∧ Sample.quoteZ ∈ E)
    ∧ UnknownCategory (category Sample.quoteZ) ∈ stdout w
    ∧ (∀ m w0, unpack m = Some Sample.quoteZ →
         dom (quotes_by_category w0) = dom quotes_by_category_init →
         add_match m w0
         = Some (print (UnknownCategory (category Sample.quoteZ)) w0)).
Proof.
  apply (C5_unknown_category_is_dropped Sample.with_unknown ∅ Sample.quoteZ);
    by_evaluation.
Defined.

Lemma extracted_sound (content : string) (q : quote) :
  q ∈ extracted content →
  ∃ pre block post caps,
    content = pre +:+ block +:+ post
    ∧ bt quote_pattern block [] = Some (caps, "")
    ∧ unpack caps = Some q.
Proof.
  unfold extracted. intros (caps & Hcaps & Hq)%list_elem_of_omap.
  destruct (scan_sound _ _ _ _ quote_pattern_det Hcaps)
    as (pre & block & post & -> & Hb).
  by exists pre, block, post, caps.
Qed.

Lemma extracted_no_match (pre rest : string) :
  no_match_in quote_pattern pre rest = true →
  extracted (pre +:+ rest) = extracted rest.
Proof.
  intros H. unfold extracted, findall. by rewrite (scan_no_match _ _ _ H).
Qed.

(** C8. The extractor raises no error on any text and touches no file.
    Every record it builds comes from a piece of the text that matches
    the pattern, and the dictionary receives these records and nothing
    else; text in which no match begins is passed over; on a text with
    no match at all the dictionary is unchanged and only the two lines
    with the file name and the count, zero, are printed. *)
Theorem C8_unmatched_text_is_skipped (file_path content : string) (w : world) :
  ∃ w', extract_quotes_from_file file_path content w = Some w'
    ∧ files w' = files w
    ∧ (∀ q, q ∈ extracted content →
         ∃ pre block post caps,
           content = pre +:+ block +:+ post
           ∧ bt quote_pattern block [] = Some (caps, "")
           ∧ unpack caps = Some q)
    ∧ (∀ c, quotes_by_category w' !! c
            = (fun l => l ++ batch c content) <$> quotes_by_category w !! c)
    ∧ (∀ pre rest, content = pre +:+ rest →
         no_match_in quote_pattern pre rest = true →
         extracted content = extracted rest)
    ∧ (no_match_in quote_pattern content "" = true →
         quotes_by_category w' = quotes_by_category w
         ∧ stdout w' = stdout w ++ [Parsing file_path; Found 0]).
Proof.
  destruct (extract_spec file_path content w) as (w' & He & Hf & Hq & Ho).
  exists w'. split_and!; [done | done | apply extracted_sound | done | |].
  - intros pre rest -> H. by apply extracted_no_match.
  - intros H.
    assert (extracted content = []) as Hnil.
    { rewrite <- (append_nil_r content). by rewrite (extracted_no_match _ _ H). }
    split.
    + apply map_eq. intros c. rewrite Hq. unfold batch. rewrite Hnil.
      destruct (quotes_by_category w !! c); simpl; [| done].
      by rewrite filter_nil, app_nil_r.
    + rewrite Ho, Hnil. done.
Qed.

(** ** Records with the same text in one run *)

Lemma fresh_two (E : list quote) (q1 q2 : quote) (l1 l2 l3 : list quote) :
  text q1 = text q2 →
  text q1 ∉ texts E →
  fresh E (l1 ++ q1 :: l2 ++ q2 :: l3)
  = fresh E l1 ++ q1 :: fresh E l2 ++ q2 :: fresh E l3.
Proof.
  intros Heq Hout. unfold fresh.
  rewrite filter_app, filter_cons_True by done.
  rewrite filter_app, filter_cons_True by (by rewrite <- Heq).
  done.
Qed.

Lemma fresh_nothing_seen (l : list quote) :
  filter (fun q => text q ∉ text <$> []) l = l.
Proof.
  induction l as [|q l IH]; [done |].
  rewrite filter_cons_True; [by rewrite IH |].
  intros H. by apply elem_of_nil in H.
Qed.

(** C9, as stated, fails: when the category's file already holds the
    text, the two records extracted with that text are both filtered out
    and the file is left as it was. *)
Lemma C9_counterexample :
  ¬ (∀ content files0 cat fname q1 q2 l1 l2 l3,
       (cat, fname) ∈ categories →
       batch cat content = l1 ++ q1 :: l2 ++ q2 :: l3 →
       text q1 = text q2 →
       ∃ w F1 F2 F3,
         main content files0 = Some w
         ∧ files w !! path_of fname = Some (F1 ++ q1 :: F2 ++ q2 :: F3)).
Proof.
  intros H.
  destruct (H Sample.two_same_text Sample.holds_A "Humor" "humor.json"
              Sample.quoteA Sample.quoteA' [] [] [])
    as (w & F1 & F2 & F3 & Hm & Hf).
  - by_evaluation.
  - vm_compute. reflexivity.
  - reflexivity.
  - assert ((fun w => files w !! path_of "humor.json")
              <$> main Sample.two_same_text Sample.holds_A
            = Some (Some [Sample.quoteA_old])) as Hr
      by (vm_compute; reflexivity).
    rewrite Hm in Hr. simpl in Hr. rewrite Hf in Hr.
    injection Hr as Hr.
    assert (Sample.quoteA ∈ F1 ++ Sample.quoteA :: F2 ++ Sample.quoteA' :: F3)
      as Hin by (apply elem_of_app; right; by left).
    rewrite Hr in Hin. by apply list_elem_of_singleton in Hin.
Qed.

(** C9, amended.  The duplicate filter looks at the texts of the existing
    file only: the file after the run is what it held followed by the
    extracted records whose text it did not hold.  So two records of one
    known category extracted in one run with the same text, a text the
    file does not hold, are both written to the category's file. *)
Theorem C9_same_text_twice_in_one_run (content : string)
    (files0 : gmap string (list quote)) (cat fname : string)
    (q1 q2 : quote) (l1 l2 l3 : list quote) :
  (cat, fname) ∈ categories →
  batch cat content = l1 ++ q1 :: l2 ++ q2 :: l3 →
  text q1 = text q2 →
  (∀ E, files0 !! path_of fname = Some E → text q1 ∉ text <$> E) →
  ∃ w, main content files0 = Some w
    ∧ files w !! path_of fname
      = Some (default [] (files0 !! path_of fname)
              ++ filter (fun q => text q ∉ text <$> default [] (files0 !! path_of fname))
                   (batch cat content))
    ∧ ∃ F1 F2 F3,
        files w !! path_of fname = Some (F1 ++ q1 :: F2 ++ q2 :: F3).
Proof.
  intros Hin Hb Heq Hnew.
  destruct (main_spec content files0) as (w & Hmain & Hc & _).
  exists w. split; [done |]. rewrite (Hc _ _ Hin).
  destruct (files0 !! path_of fname) as [E|] eqn:HE.
  - change (default [] (Some E)) with E.
    change (filter (fun q => text q ∉ text <$> E) (batch cat content))
      with (fresh E (batch cat content)).
    split; [done |].
    unfold merged.
    rewrite Hb, (fresh_two E q1 q2 l1 l2 l3 Heq (Hnew E eq_refl)).
    exists (E ++ fresh E l1), (fresh E l2), (fresh E l3).
    simpl. by rewrite <- app_assoc.
  - change (default [] None) with (@nil quote).
    rewrite fresh_nothing_seen, Hb. split.
    + by destruct l1.
    + exists l1, l2, l3. by destruct l1.
Qed.

Lemma C9_witness :
  ∃ w, main Sample.two_same_text ∅ = Some w
    ∧ files w !! path_of "humor.json"
      = Some (default [] ((∅ : gmap string (list quote)) !! path_of "humor.json")
              ++ filter (fun q => text q ∉ text <$>
                           default [] ((∅ : gmap string (list quote))
                                         !! path_of "humor.json"))
                   (batch "Humor" Sample.two_same_text))
    ∧ ∃ F1 F2 F3,
        files w !! path_of "humor.json"
        = Some (F1 ++ Sample.quoteA :: F2 ++ Sample.quoteA' :: F3).
Proof.
  apply (C9_same_text_twice_in_one_run Sample.two_same_text ∅
           "Humor" "humor.json" Sample.quoteA Sample.quoteA' [] [] []).
  - by_evaluation.
  - vm_compute. reflexivity.
  - reflexivity.
  - intros E HE. by rewrite lookup_empty in HE.
Defined.

(** ** Two runs evaluated *)

(** A file holding a record of text [A] and an extraction yielding texts
    [A] and [B]: the file keeps its record and gains the one of [B]. *)
Example merge_keeps_A_adds_B :
  (fun w => files w !! path_of "humor.json")
    <$> save_quotes_to_json Sample.with_file
  = Some (Some [Sample.quoteA; Sample.quoteB]).
Proof. vm_compute. reflexivity. Qed.

(** The lines printed by a run on [Sample.with_unknown] with no file. *)
Example lines_of_a_run :
  stdout <$> main Sample.with_unknown ∅
  = Some [Parsing "src/quotes.rs"; Found 2; UnknownCategory "Riddles";
          NoQuotesFound "Proverbs"; NoQuotesFound "TongueTwisters";
          NoQuotesFound "Literature"; NoQuotesFound "Programming";
          Creating 1 "Humor"; Saved 1 (path_of "humor.json");
          NoQuotesFound "Multilingual"; NoQuotesFound "Typewriters";
          Complete].
Proof. vm_compute. reflexivity. Qed.

(** * Further properties of the script *)

(** ** What the pattern accepts *)

Lemma bt_literal (a : ascii) (p : pattern) (r : string) (caps : list string) :
  bt (Chr (Exactly a) :: p) (String a r) caps = bt p r caps.
Proof. simpl. by rewrite Ascii.eqb_refl. Qed.

Lemma bt_chr (c : cclass) (a : ascii) (p : pattern) (r : string)
    (caps : list string) :
  in_class c a = true → bt (Chr c :: p) (String a r) caps = bt p r caps.
Proof. intros H. simpl. by rewrite H. Qed.

Lemma bt_rep_literal (cap ne : bool) (c : cclass) (a : ascii) (p : pattern)
    (u r : string) (caps : list string) :
  all_in c u = true →
  in_class c a = false →
  ne && is_empty u = false →
  bt (Rep cap ne c :: Chr (Exactly a) :: p) (u +:+ String a r) caps
  = bt p r (if cap then caps ++ [u] else caps).
Proof.
  intros Hu Ha Hne. rewrite bt_rep_det by done.
  destruct (longest_stop c u a r Hu Ha) as [-> ->].
  rewrite Hne. apply bt_literal.
Qed.

Lemma blank_gap (gaps : list string) (i : nat) :
  blank gaps = true → all_in Space (gap gaps i) = true.
Proof.
  unfold blank, gap. intros H.
  destruct (gaps !! i) as [g|] eqn:E; [| done]. simpl.
  rewrite forallb_forall in H. apply H.
  apply list_elem_of_In. by eapply list_elem_of_lookup_2.
Qed.

(** The pattern matches a rendered block, whatever follows, and captures
    its fields. *)
Lemma bt_render (gaps : list string) (q : quote) (post : string) :
  blank gaps = true →
  well_formed q = true →
  bt quote_pattern (render gaps q +:+ post) []
  = Some ([text q; source q; difficulty q; category q; origin q], post).
Proof.
  intros Hg Hq. unfold well_formed in Hq.
  repeat (apply andb_true_iff in Hq as [Hq ?]).
  let P := eval vm_compute in quote_pattern in change quote_pattern with P.
  unfold render, dq. rewrite !append_assoc.
  repeat first
    [ rewrite bt_literal
    | rewrite bt_chr by reflexivity
    | rewrite bt_rep_literal
        by first [ by apply blank_gap | done
                 | by destruct (difficulty q) | by destruct (category q) ]
    | progress cbn [String.append] ].
  done.
Qed.

Lemma unpack_fields (q : quote) :
  unpack [text q; source q; difficulty q; category q; origin q] = Some q.
Proof. by destruct q. Qed.

Lemma quote_pattern_head : ∃ p, quote_pattern = Chr (Exactly "Q") :: p.
Proof. by eexists. Qed.

Lemma no_Q_no_match (pre rest : string) :
  no_Q pre = true → no_match_in quote_pattern pre rest = true.
Proof.
  destruct quote_pattern_head as [p Hp].
  induction pre as [|a pre IH]; [done |].
  cbn [no_Q no_match_in]. intros [Ha Hpre]%andb_true_iff.
  apply negb_true_iff in Ha.
  assert (bt quote_pattern (String a pre +:+ rest) [] = None) as ->.
  { rewrite Hp. cbn [String.append bt in_class]. by rewrite Ha. }
  by apply IH.
Qed.

Lemma findall_render (before : string) (gaps : list string) (q : quote)
    (post : string) :
  no_Q before = true →
  blank gaps = true →
  well_formed q = true →
  findall quote_pattern (before +:+ render gaps q +:+ post)
  = [text q; source q; difficulty q; category q; origin q]
    :: findall quote_pattern post.
Proof.
  intros Hb Hg Hq. unfold findall.
  rewrite (scan_no_match _ _ _ (no_Q_no_match _ _ Hb)).
  pose proof (bt_render gaps q post Hg Hq) as Hm.
  assert (∃ u, render gaps q = String "Q" u) as [u Hu] by by eexists.
  rewrite Hu in *. by apply scan_match.
Qed.

Lemma extracted_source_text (blocks : list (string * list string * quote))
    (tail : string) :
  Forall laid_out blocks →
  no_Q tail = true →
  extracted (source_text blocks tail) = snd <$> blocks.
Proof.
  intros Hb Ht. induction Hb as [|[[before gaps] q] blocks (H1 & H2 & H3) _ IH].
  - simpl. rewrite <- (append_nil_r tail).
    by rewrite (extracted_no_match _ _ (no_Q_no_match _ _ Ht)).
  - change (source_text ((before, gaps, q) :: blocks) tail)
      with (before +:+ render gaps q +:+ source_text blocks tail).
    rewrite fmap_cons. unfold extracted in *.
    rewrite (findall_render _ _ _ _ H1 H2 H3).
    rewrite (omap_unpack_cons _ _ _ (unpack_fields q)). by rewrite IH.
Qed.

(** X1. A block written with the fixed words of the pattern, white space
    (or nothing) in the twelve gaps, quoted fields without a double quote
    and non-empty word labels is matched whatever follows it, with its
    five fields as the groups; alone, it yields exactly its record. *)
Theorem X1_rendered_block_is_matched (gaps : list string) (q : quote)
    (post : string) :
  blank gaps = true →
  well_formed q = true →
  bt quote_pattern (render gaps q +:+ post) []
  = Some ([text q; source q; difficulty q; category q; origin q], post)
  ∧ extracted (render gaps q) = [q].
Proof.
  intros Hg Hq. split; [by apply bt_render |].
  pose proof (extracted_source_text [("", gaps, q)] "") as H.
  change (source_text [("", gaps, q)] "") with (render gaps q +:+ "") in H.
  rewrite append_nil_r in H. apply H; [| done].
  by repeat constructor.
Qed.

Lemma X1_witness :
  bt quote_pattern (render Sample.rust_gaps Sample.quoteA +:+ ", // next") []
  = Some ([text Sample.quoteA; source Sample.quoteA;
           difficulty Sample.quoteA; category Sample.quoteA;
           origin Sample.quoteA], ", // next")
  ∧ extracted (render Sample.rust_gaps Sample.quoteA) = [Sample.quoteA].
Proof.
  apply (X1_rendered_block_is_matched Sample.rust_gaps Sample.quoteA
           ", // next"); vm_compute; reflexivity.
Defined.

(** X2. On a source text made of well-formed blocks, each after text
    without a capital Q, the extractor yields exactly the records of the
    blocks, in the order of the text, and the number of matches it counts
    is the number of blocks. *)
Theorem X2_source_text_yields_its_records
    (blocks : list (string * list string * quote)) (tail : string) :
  Forall laid_out blocks →
  no_Q tail = true →
  extracted (source_text blocks tail) = snd <$> blocks
  ∧ length (findall quote_pattern (source_text blocks tail)) = length blocks.
Proof.
  intros Hb Ht.
  pose proof (extracted_source_text blocks tail Hb Ht) as He.
  split; [done |].
  by rewrite <- length_extracted, He, length_fmap.
Qed.

Lemma X2_witness :
  extracted (source_text Sample.two_blocks ("," +:+ nl +:+ "]"))
  = snd <$> Sample.two_blocks
  ∧ length (findall quote_pattern
              (source_text Sample.two_blocks ("," +:+ nl +:+ "]")))
    = length Sample.two_blocks.
Proof.
  apply (X2_source_text_yields_its_records Sample.two_blocks
           ("," +:+ nl +:+ "]")).
  - repeat constructor; vm_compute; reflexivity.
  - reflexivity.
Defined.

(** X3. In every record the extractor builds, [difficulty] and
    [category] are non-empty and made of word characters only. *)
Theorem X3_labels_are_nonempty_words (content : string) :
  Forall (fun q => (all_in Word (difficulty q) = true ∧ difficulty q ≠ "")
                   ∧ (all_in Word (category q) = true ∧ category q ≠ ""))
    (extracted content).
Proof.
  apply extracted_Forall. intros s caps rest q Hb Hq.
  destruct (quote_pattern_captures _ _ _ Hb)
    as (t & so & d & c & o & -> & _ & _ & Hd & Hc & _).
  by injection Hq as <-.
Qed.

Lemma append_cancel_r (u v p : string) : u +:+ p = v +:+ p → u = v.
Proof.
  revert v. induction u as [|a u IH]; intros [|b v]; simpl; try done.
  - intros H. apply (f_equal String.length) in H. simpl in H.
    rewrite length_append in H. lia.
  - intros H. apply (f_equal String.length) in H. simpl in H.
    rewrite length_append in H. lia.
  - intros [= -> H]. f_equal. by apply IH.
Qed.

(** X4. A match of the pattern depends on the matched text alone: a text
    is matched at the start of a longer one, with the same groups, exactly
    when it is matched on its own. *)
Theorem X4_match_ignores_what_follows (block post : string) (caps : list string) :
  bt quote_pattern (block +:+ post) [] = Some (caps, post)
  ↔ bt quote_pattern block [] = Some (caps, "").
Proof.
  split.
  - intros H.
    destruct (bt_restrict _ _ _ _ _ quote_pattern_det H) as (u & Hu & Hm).
    apply append_cancel_r in Hu. by subst u.
  - intros H. exact (bt_extend _ _ _ _ _ post quote_pattern_det H).
Qed.

(** ** The dictionary after the extractor *)

Lemma names_NoDup : NoDup categories.*1.
Proof. by_evaluation. Qed.

Lemma sum_list_cons (n : nat) (l : list nat) :
  sum_list (n :: l) = n + sum_list l.
Proof. done. Qed.

Lemma sum_filter_other (names : list string) (q : quote) (l : list quote) :
  category q ∉ names →
  sum_list ((fun c => length (filter (fun q' => category q' = c) (q :: l)))
              <$> names)
  = sum_list ((fun c => length (filter (fun q' => category q' = c) l))
                <$> names).
Proof.
  induction names as [|n names IH]; [done |].
  intros [Hn Hnames]%not_elem_of_cons.
  rewrite !fmap_cons, !sum_list_cons.
  rewrite filter_cons_False by done. by rewrite IH.
Qed.

Lemma sum_filter_one (names : list string) (q : quote) (l : list quote) :
  NoDup names →
  category q ∈ names →
  sum_list ((fun c => length (filter (fun q' => category q' = c) (q :: l)))
              <$> names)
  = S (sum_list ((fun c => length (filter (fun q' => category q' = c) l))
                   <$> names)).
Proof.
  induction names as [|n names IH]; intros Hnd Hin.
  - by apply elem_of_nil in Hin.
  - apply NoDup_cons in Hnd as [Hn Hnd].
    rewrite !fmap_cons, !sum_list_cons.
    destruct (decide (category q = n)) as [<- | Hne].
    + rewrite filter_cons_True by done.
      rewrite (sum_filter_other names q l Hn). simpl. lia.
    + rewrite filter_cons_False by done.
      apply elem_of_cons in Hin as [? | Hin]; [done |].
      rewrite (IH Hnd Hin). lia.
Qed.

Lemma sum_filter_nil (names : list string) :
  sum_list ((fun c => length (filter (fun q : quote => category q = c) []))
              <$> names) = 0.
Proof.
  induction names as [|n names IH]; [done |].
  by rewrite fmap_cons, sum_list_cons, IH.
Qed.

(** Every record is in the list of one known category or has an unknown
    one. *)
Lemma count_by_category (names : list string) (l : list quote) :
  NoDup names →
  length l
  = sum_list ((fun c => length (filter (fun q => category q = c) l)) <$> names)
    + length (filter (fun q => category q ∉ names) l).
Proof.
  intros Hnd. induction l as [|q l IH].
  - rewrite sum_filter_nil. done.
  - destruct (decide (category q ∈ names)) as [Hin | Hout].
    + rewrite (sum_filter_one names q l Hnd Hin).
      rewrite (filter_cons_False (fun q => category q ∉ names)) by auto.
      simpl. by rewrite IH.
    + rewrite (sum_filter_other names q l Hout).
      rewrite (filter_cons_True (fun q => category q ∉ names)) by done.
      simpl. rewrite IH. lia.
Qed.

Lemma init_lookup_None_iff (c : string) :
  quotes_by_category_init !! c = None ↔ c ∉ categories.*1.
Proof.
  split; [| apply categories_init_None].
  intros H Hin. apply list_elem_of_fmap in Hin as ([cat fname] & -> & Hin).
  simpl in H. by rewrite (categories_init _ _ Hin) in H.
Qed.

(** The extractor run on the dictionary of the freshly loaded module. *)
Lemma extract_fresh (file_path content : string)
    (files0 : gmap string (list quote)) (out0 : list message) :
  ∃ w', extract_quotes_from_file file_path content
          (World quotes_by_category_init files0 out0) = Some w'
    ∧ files w' = files0
    ∧ (∀ cat fname, (cat, fname) ∈ categories →
         quotes_by_category w' !! cat = Some (batch cat content))
    ∧ (∀ c, c ∉ categories.*1 → quotes_by_category w' !! c = None)
    ∧ stdout w' =
        out0 ++ [Parsing file_path; Found (length (extracted content))]
        ++ ((fun q => UnknownCategory (category q)) <$>
              filter (fun q => category q ∉ categories.*1) (extracted content)).
Proof.
  destruct (extract_spec file_path content
              (World quotes_by_category_init files0 out0))
    as (w' & He & Hf & Hq & Ho).
  exists w'. split_and!; [done | done | | |].
  - intros cat fname Hin. rewrite Hq. cbn [quotes_by_category].
    by rewrite (categories_init _ _ Hin).
  - intros c Hc. rewrite Hq. cbn [quotes_by_category].
    by rewrite (categories_init_None _ Hc).
  - rewrite Ho. cbn [quotes_by_category stdout]. do 3 f_equal.
    apply list_filter_iff. intros q. apply init_lookup_None_iff.
Qed.

(** X5. After the extractor has run on the dictionary of the freshly
    loaded module, the dictionary has the seven category keys and no
    other; each key holds the records of its category in the order of
    the source text. *)
Theorem X5_dictionary_after_extraction (file_path content : string)
    (files0 : gmap string (list quote)) (out0 : list message) :
  ∃ w', extract_quotes_from_file file_path content
          (World quotes_by_category_init files0 out0) = Some w'
    ∧ dom (quotes_by_category w') = list_to_set categories.*1
    ∧ (∀ cat fname, (cat, fname) ∈ categories →
         quotes_by_category w' !! cat
         = Some (filter (fun q => category q = cat) (extracted content))).
Proof.
  destruct (extract_fresh file_path content files0 out0)
    as (w' & He & _ & Hk & Hu & _).
  exists w'. split_and!; [done | | done].
  apply set_eq. intros c. rewrite elem_of_dom, elem_of_list_to_set.
  split.
  - intros Hc. destruct (decide (c ∈ categories.*1)) as [? | Hout]; [done |].
    rewrite (Hu c Hout) in Hc. by destruct Hc.
  - intros ([cat fname] & -> & Hin)%list_elem_of_fmap.
    cbn [fst]. rewrite (Hk _ _ Hin). by eexists.
Qed.

(** X6. The count the extractor prints is the number of records it stored
    in the dictionary plus the number of lines it printed for records of
    an unknown category: no match is lost without a line. *)
Theorem X6_printed_count_is_stored_plus_unknown (file_path content : string)
    (files0 : gmap string (list quote)) (out0 : list message) :
  ∃ w' unknown,
    extract_quotes_from_file file_path content
      (World quotes_by_category_init files0 out0) = Some w'
    ∧ stdout w' =
        out0
        ++ [Parsing file_path;
            Found (stored (quotes_by_category w') + length unknown)]
        ++ (UnknownCategory <$> unknown).
Proof.
  destruct (extract_fresh file_path content files0 out0)
    as (w' & He & _ & Hk & _ & Ho).
  exists w', (category <$> filter (fun q => category q ∉ categories.*1)
                             (extracted content)).
  split; [done |]. rewrite Ho. do 3 f_equal.
  - rewrite length_fmap.
    rewrite (count_by_category categories.*1 (extracted content) names_NoDup).
    unfold stored. rewrite <- list_fmap_compose.
    rewrite (list_fmap_ext
               ((fun c => length (filter (fun q => category q = c)
                                    (extracted content))) ∘ fst)
               (fun cf => length (default [] (quotes_by_category w' !! cf.1)))
               categories); [done |].
    intros i [cat fname] Hin. simpl.
    apply list_elem_of_lookup_2 in Hin. by rewrite (Hk _ _ Hin).
  - by rewrite <- list_fmap_compose.
Qed.

(** ** The merge-writer and whole runs *)

Lemma save_category_dict (cf : string * string) (w w' : world) :
  save_category cf w = Some w' → quotes_by_category w' = quotes_by_category w.
Proof.
  destruct cf as [cat fname]. unfold save_category.
  destruct (quotes_by_category w !! cat) as [[|q qs]|]; [| | done].
  - by intros [= <-].
  - destruct (files w !! path_of fname) as [e|].
    + destruct (filter _ (q :: qs)); by intros [= <-].
    + by intros [= <-].
Qed.

Lemma for_each_save_missing (cats : list (string * string)) (w : world)
    (cat fname : string) :
  (cat, fname) ∈ cats →
  quotes_by_category w !! cat = None →
  for_each save_category cats w = None.
Proof.
  revert w. induction cats as [|cf cats IH]; intros w Hin Hnone.
  - by apply elem_of_nil in Hin.
  - cbn [for_each]. apply elem_of_cons in Hin as [<- | Hin].
    + unfold save_category. by rewrite Hnone.
    + destruct (save_category cf w) as [w1|] eqn:E; [| done].
      apply IH; [done |]. by rewrite (save_category_dict _ _ _ E).
Qed.

(** X7. When the dictionary lacks the key of one of the seven
    categories, the merge-writer raises: the loop reaches that category,
    earlier rounds leaving the dictionary as it is, and the lookup of its
    key fails. *)
Theorem X7_missing_key_raises (w : world) (cat fname : string) :
  (cat, fname) ∈ categories →
  quotes_by_category w !! cat = None →
  save_quotes_to_json w = None.
Proof.
  intros Hin Hnone. unfold save_quotes_to_json.
  by eapply for_each_save_missing.
Qed.

Lemma X7_witness : save_quotes_to_json Sample.no_humor_key = None.
Proof.
  apply (X7_missing_key_raises Sample.no_humor_key "Humor" "humor.json").
  - by_evaluation.
  - vm_compute. reflexivity.
Defined.

(** X8. A run only appends: a file that held [E] holds [E] followed by
    records the run extracted whose text was not in [E]. *)
Theorem X8_run_only_appends (content : string)
    (files0 : gmap string (list quote)) (path : string) (E : list quote) :
  files0 !! path = Some E →
  ∃ w new, main content files0 = Some w
    ∧ files w !! path = Some (E ++ new)
    ∧ Forall (fun q => q ∈ extracted content ∧ text q ∉ text <$> E) new.
Proof.
  intros HE. destruct (main_spec content files0) as (w & Hm & Hc & Ho).
  destruct (category_path_dec path) as [(cat & fname & Hin & ->) | Hout].
  - exists w, (fresh E (batch cat content)). split_and!; [done | |].
    + by rewrite (Hc _ _ Hin), HE.
    + apply Forall_forall. intros q [Hq Hb]%list_elem_of_filter.
      by apply list_elem_of_filter in Hb as [_ Hb].
  - exists w, []. split_and!; [done | | done].
    by rewrite (Ho _ Hout), app_nil_r.
Qed.

Lemma X8_witness :
  ∃ w new, main Sample.first_text {[ path_of "humor.json" := [Sample.quoteA] ]}
           = Some w
    ∧ files w !! path_of "humor.json" = Some ([Sample.quoteA] ++ new)
    ∧ Forall (fun q => q ∈ extracted Sample.first_text
                       ∧ text q ∉ text <$> [Sample.quoteA]) new.
Proof.
  apply (X8_run_only_appends Sample.first_text
           {[ path_of "humor.json" := [Sample.quoteA] ]}
           (path_of "humor.json") [Sample.quoteA]).
  vm_compute. reflexivity.
Defined.

(** X9. A run creates or changes no file but the seven category files,
    and removes none. *)
Theorem X9_run_touches_category_files_only (content : string)
    (files0 : gmap string (list quote)) :
  ∃ w, main content files0 = Some w
    ∧ (∀ path, path ∉ path_of <$> categories.*2 →
         files w !! path = files0 !! path)
    ∧ dom files0 ⊆ dom (files w)
    ∧ dom (files w) ⊆ dom files0 ∪ list_to_set (path_of <$> categories.*2).
Proof.
  destruct (main_spec content files0) as (w & Hm & Hc & Ho).
  exists w. split_and!; [done | done | |].
  - intros path [E HE]%elem_of_dom. apply elem_of_dom.
    destruct (category_path_dec path) as [(cat & fname & Hin & ->) | Hout].
    + rewrite (Hc _ _ Hin), HE. by eexists.
    + rewrite (Ho _ Hout), HE. by eexists.
  - intros path Hp. apply elem_of_union.
    destruct (category_path_dec path) as [(cat & fname & Hin & ->) | Hout].
    + right. apply elem_of_list_to_set, list_elem_of_fmap_2.
      apply list_elem_of_fmap. by exists (cat, fname).
    + left. apply elem_of_dom. rewrite <- (Ho _ Hout). by apply elem_of_dom.
Qed.

Lemma merged_covers (old : option (list quote)) (N : list quote) (q : quote) :
  q ∈ N → ∃ F, merged old N = Some F ∧ text q ∈ texts F.
Proof.
  intros Hq. destruct old as [E|]; simpl.
  - eexists. split; [done |]. unfold texts. rewrite fmap_app.
    apply elem_of_app.
    destruct (decide (text q ∈ texts E)) as [? | Hout]; [by left |].
    right. apply list_elem_of_fmap_2. by apply list_elem_of_filter.
  - destruct N as [|n N]; [by apply elem_of_nil in Hq |].
    eexists. split; [done |]. by apply list_elem_of_fmap_2.
Qed.

Lemma run_covers (content : string) (files0 : gmap string (list quote)) :
  ∃ files1, run content files0 = Some files1 ∧ covers files1 content.
Proof.
  unfold run. destruct (main_spec content files0) as (w & -> & Hc & _).
  exists (files w). split; [done |]. intros cat fname q Hin Hq.
  rewrite (Hc _ _ Hin). by apply merged_covers.
Qed.

(** X10. After a run, the file of each known category holds, for every
    record the run extracted for the category, a record with that
    text. *)
Theorem X10_every_extracted_text_is_stored (content : string)
    (files0 : gmap string (list quote)) (cat fname : string) (q : quote) :
  (cat, fname) ∈ categories →
  q ∈ extracted content →
  category q = cat →
  ∃ w F, main content files0 = Some w
    ∧ files w !! path_of fname = Some F
    ∧ text q ∈ text <$> F.
Proof.
  intros Hin Hq Hcat. destruct (main_spec content files0) as (w & Hm & Hc & _).
  destruct (merged_covers (files0 !! path_of fname) (batch cat content) q)
    as (F & HF & Ht).
  { by apply list_elem_of_filter. }
  exists w, F. by rewrite (Hc _ _ Hin).
Qed.

Lemma X10_witness :
  ∃ w F, main Sample.first_text {[ path_of "humor.json" := [Sample.quoteA'] ]}
         = Some w
    ∧ files w !! path_of "humor.json" = Some F
    ∧ text Sample.quoteA ∈ text <$> F.
Proof.
  apply (X10_every_extracted_text_is_stored Sample.first_text
           {[ path_of "humor.json" := [Sample.quoteA'] ]}
           "Humor" "humor.json" Sample.quoteA).
  - by_evaluation.
  - by_evaluation.
  - reflexivity.
Defined.

Lemma run_keeps_covers (content other : string)
    (fs fs1 : gmap string (list quote)) :
  covers fs content → run other fs = Some fs1 → covers fs1 content.
Proof.
  intros Hcov Hrun cat fname q Hin Hq. unfold run in Hrun.
  destruct (main_spec other fs) as (w & Hm & Hc & _).
  rewrite Hm in Hrun. injection Hrun as <-.
  destruct (Hcov cat fname q Hin Hq) as (F & HF & Ht).
  rewrite (Hc _ _ Hin), HF. simpl. eexists. split; [done |].
  unfold texts. rewrite fmap_app. apply elem_of_app. by left.
Qed.

Lemma runs_keep_covers (content : string) (contents : list string)
    (fs : gmap string (list quote)) :
  covers fs content →
  ∃ fs1, runs contents fs = Some fs1 ∧ covers fs1 content.
Proof.
  revert fs. induction contents as [|other contents IH]; intros fs Hcov.
  - by exists fs.
  - cbn [runs]. destruct (run_covers other fs) as (fs1 & Hrun & _).
    rewrite Hrun. apply IH. by eapply run_keeps_covers.
Qed.

Lemma run_covered (content : string) (fs : gmap string (list quote)) :
  covers fs content → run content fs = Some fs.
Proof.
  intros Hcov. unfold run.
  destruct (main_spec content fs) as (w & -> & Hc & Ho).
  simpl. f_equal. apply map_eq. intros path.
  destruct (category_path_dec path) as [(cat & fname & Hin & ->) | Hout];
    [| by apply Ho].
  rewrite (Hc _ _ Hin).
  destruct (fs !! path_of fname) as [E|] eqn:HE; simpl.
  - rewrite fresh_all_seen; [by rewrite app_nil_r |].
    intros q Hq. destruct (Hcov cat fname q Hin Hq) as (F & HF & Ht).
    rewrite HE in HF. by injection HF as <-.
  - destruct (batch cat content) as [|q l] eqn:Hb; [done |].
    destruct (Hcov cat fname q Hin) as (F & HF & _).
    { rewrite Hb. by left. }
    by rewrite HE in HF.
Qed.

(** X11. Texts once stored are not added again: when the script has run
    on a source text, then any number of times on other texts, a further
    run on the first text changes no file. *)
Theorem X11_rerun_after_other_runs (content : string) (contents : list string)
    (files0 : gmap string (list quote)) :
  ∃ files1 files2,
    run content files0 = Some files1
    ∧ runs contents files1 = Some files2
    ∧ run content files2 = Some files2.
Proof.
  destruct (run_covers content files0) as (files1 & Hrun & Hcov).
  destruct (runs_keep_covers content contents files1 Hcov)
    as (files2 & Hruns & Hcov2).
  exists files1, files2. split_and!; [done | done |].
  by apply run_covered.
Qed.

(** X12. The first run, with no output file, on a source text made of
    well-formed blocks: every category with a block gets a file holding
    the records of its blocks in the order of the text; a category
    without a block, and a block of an unknown category, give no file. *)
Theorem X12_first_run_on_a_source_text
    (blocks : list (string * list string * quote)) (tail : string) :
  Forall laid_out blocks →
  no_Q tail = true →
  ∃ w, main (source_text blocks tail) ∅ = Some w
    ∧ (∀ cat fname, (cat, fname) ∈ categories →
         files w !! path_of fname
         = match filter (fun q => category q = cat) (snd <$> blocks) with
           | [] => None
           | records => Some records
           end)
    ∧ (∀ path, path ∉ path_of <$> categories.*2 → files w !! path = None).
Proof.
  intros Hb Ht.
  destruct (main_spec (source_text blocks tail) ∅) as (w & Hm & Hc & Ho).
  exists w. split_and!; [done | |].
  - intros cat fname Hin. rewrite (Hc _ _ Hin), lookup_empty.
    unfold batch. rewrite (extracted_source_text _ _ Hb Ht).
    by destruct (filter _ (snd <$> blocks)).
  - intros path Hp. by rewrite (Ho _ Hp), lookup_empty.
Qed.

Lemma X12_witness :
  ∃ w, main (source_text Sample.two_blocks ("," +:+ nl +:+ "]")) ∅ = Some w
    ∧ (∀ cat fname, (cat, fname) ∈ categories →
         files w !! path_of fname
         = match filter (fun q => category q = cat)
                   (snd <$> Sample.two_blocks) with
           | [] => None
           | records => Some records
           end)
    ∧ (∀ path, path ∉ path_of <$> categories.*2 → files w !! path = None).
Proof.
  apply (X12_first_run_on_a_source_text Sample.two_blocks
           ("," +:+ nl +:+ "]")).
  - repeat constructor; vm_compute; reflexivity.
  - reflexivity.
Defined.

(** The layout of [rust_block] is one of those [render] covers. *)
Example rust_block_is_rendered :
  rust_block "A" "Anon" "Easy" "Humor" "English"
  = render Sample.rust_gaps Sample.quoteA.
Proof. reflexivity. Qed.

(** ** Quoted fields and double quotes *)









(** A backslash-escaped quote in the text of a block that nothing
    completes: no match, no record. *)
Example escaped_text_yields_nothing : extracted Sample.escaped = [].
Proof. vm_compute. reflexivity. Qed.
